(** * linuxstorybook: the two EPUB scripts

    A shallow embedding of [scripts/update-epub-metadata.js] (the metadata
    patch) and of the Apple Books EPUB build script, with the properties of
    their specification stated and proved over it.

    JavaScript strings are sequences of UTF-16 code units; they are modelled
    as [list N].  The regular expressions of the two scripts are written in a
    small abstract syntax and run by a backtracking matcher that follows the
    continuation-passing semantics of ECMA-262 (section 22.2.2), and the
    string methods the scripts call ([replace], [split], [match], [trim],
    [includes], [substring]) are defined on top of it. *)

From Stdlib Require Import NArith ZArith String Ascii Decimal DecimalN.
From stdpp Require Import base option list gmap.

Open Scope N_scope.

(** ** Strings *)

Abbreviation str := (list N).

Definition ascii_lower (b : N) : bool := (97 <=? b) && (b <=? 122).

Fixpoint bytes (s : string) : list N :=
  match s with
  | EmptyString => []
  | String a s' => N_of_ascii a :: bytes s'
  end.

(** The UTF-16 code units of a UTF-8 byte sequence, so that the literals of
    the scripts can be written as they stand in the source. *)
Fixpoint utf16 (bs : list N) : str :=
  match bs with
  | [] => []
  | b :: r =>
    if b <? 128 then b :: utf16 r
    else if b <? 224 then
      match r with
      | c1 :: r' => ((b mod 32) * 64 + c1 mod 64) :: utf16 r'
      | _ => []
      end
    else if b <? 240 then
      match r with
      | c1 :: c2 :: r' =>
          ((b mod 16) * 4096 + (c1 mod 64) * 64 + c2 mod 64) :: utf16 r'
      | _ => []
      end
    else
      match r with
      | c1 :: c2 :: c3 :: r' =>
          let cp := (b mod 8) * 262144 + (c1 mod 64) * 4096
                    + (c2 mod 64) * 64 + c3 mod 64 - 65536 in
          (55296 + cp / 1024) :: (56320 + cp mod 1024) :: utf16 r'
      | _ => []
      end
  end.

(** [js "..."] is the JavaScript string written ["..."] in the source. *)
Definition js (s : string) : str := utf16 (bytes s).

Definition LF : N := 10.
Definition DOLLAR : N := 36.

(** [String(n)] for a non-negative integer. *)
Fixpoint digits (u : Decimal.uint) : str :=
  match u with
  | Nil => []
  | D0 u => 48 :: digits u
  | D1 u => 49 :: digits u
  | D2 u => 50 :: digits u
  | D3 u => 51 :: digits u
  | D4 u => 52 :: digits u
  | D5 u => 53 :: digits u
  | D6 u => 54 :: digits u
  | D7 u => 55 :: digits u
  | D8 u => 56 :: digits u
  | D9 u => 57 :: digits u
  end.

Definition numToString (n : N) : str := digits (N.to_uint n).

(** WhiteSpace and LineTerminator code units: what [\s] matches and what
    [trim] removes. *)
Definition isSpace (c : N) : bool :=
  (c =? 9) || (c =? 10) || (c =? 11) || (c =? 12) || (c =? 13) || (c =? 32)
  || (c =? 160) || (c =? 5760) || ((8192 <=? c) && (c <=? 8202))
  || (c =? 8232) || (c =? 8233) || (c =? 8239) || (c =? 8287)
  || (c =? 12288) || (c =? 65279).

(** LineTerminator: what [.] does not match. *)
Definition isLineTerminator (c : N) : bool :=
  (c =? 10) || (c =? 13) || (c =? 8232) || (c =? 8233).

Fixpoint trimStart (s : str) : str :=
  match s with
  | c :: s' => if isSpace c then trimStart s' else s
  | [] => []
  end.

Definition trimEnd (s : str) : str := rev (trimStart (rev s)).

Definition trim (s : str) : str := trimEnd (trimStart s).

Fixpoint startsWith (s p : str) {struct p} : bool :=
  match p, s with
  | [], _ => true
  | a :: p', b :: s' => (a =? b) && startsWith s' p'
  | _ :: _, [] => false
  end.

(** [s.includes(p)] *)
Fixpoint includes (s p : str) : bool :=
  startsWith s p ||
  match s with
  | [] => false
  | _ :: s' => includes s' p
  end.

(** [s.substring(a)] and [s.substring(0, n)], for in-range arguments and
    clamped like [substring] beyond the length. *)
Definition substringFrom (s : str) (a : nat) : str := drop a s.
Definition substringTo (s : str) (n : nat) : str := take n s.

(** ** Regular expressions *)

Inductive classAtom :=
| CChar (c : N)          (* a literal character *)
| CSpace                 (* \s *)
| CNonSpace.             (* \S *)

Inductive regex :=
| Eps                                     (* empty pattern *)
| Chr (c : N)                             (* pattern character *)
| Dot                                     (* . *)
| Class (neg : bool) (cs : list classAtom)  (* [...] and [^...] *)
| Bol                                     (* ^ *)
| Seq (r1 r2 : regex)
| Alt (r1 r2 : regex)                     (* r1|r2 *)
| Star (greedy : bool) (r : regex)        (* r* and r*? *)
| Group (i : nat) (r : regex).            (* the i-th capturing group *)

(** [r+] *)
Definition Plus (greedy : bool) (r : regex) : regex := Seq r (Star greedy r).

(** A literal run of pattern characters. *)
Fixpoint Lit (s : str) : regex :=
  match s with
  | [] => Eps
  | [c] => Chr c
  | c :: s' => Seq (Chr c) (Lit s')
  end.

Record RegExp := {
  source : regex;
  nCaptures : nat;
  flagGlobal : bool;
  flagIgnoreCase : bool
}.

(** Canonicalize (22.2.5.6) without the [u] flag.  A code unit outside ASCII
    never canonicalizes to an ASCII one, and every pattern of the two scripts
    that carries the [i] flag is pure ASCII, so only the ASCII letters need
    their upper-case mapping here. *)
Definition canonicalize (ic : bool) (c : N) : N :=
  if ic && ascii_lower c then c - 32 else c.

Definition atomMatches (ic : bool) (a : classAtom) (c : N) : bool :=
  match a with
  | CChar x => canonicalize ic x =? canonicalize ic c
  | CSpace => isSpace c
  | CNonSpace => negb (isSpace c)
  end.

(** The matcher state: the index reached, the input from there on, and the
    captures recorded so far. *)
Record MatchState := {
  endIndex : nat;
  rest : str;
  captures : list (option str)
}.

Definition advance (x : MatchState) (s' : str) : MatchState :=
  {| endIndex := S (endIndex x); rest := s'; captures := captures x |}.

Definition matchChar (p : N -> bool) (x : MatchState)
    (c : MatchState -> option MatchState) : option MatchState :=
  match rest x with
  | ch :: s' => if p ch then c (advance x s') else None
  | [] => None
  end.

(** [matcher ic r x c]: match [r] at state [x] and hand the state reached to
    the continuation [c], backtracking into [r] while [c] fails.  A star stops
    iterating on an iteration that consumes nothing (RepeatMatcher, step 2.b),
    so that it runs at most once per remaining character; none of the
    scripts' patterns has a group under a quantifier, so captures need no
    reset between iterations. *)
Fixpoint matcher (ic : bool) (r : regex) (x : MatchState)
    (c : MatchState -> option MatchState) : option MatchState :=
  match r with
  | Eps => c x
  | Chr p => matchChar (fun ch => canonicalize ic p =? canonicalize ic ch) x c
  | Dot => matchChar (fun ch => negb (isLineTerminator ch)) x c
  | Class neg cs =>
      matchChar (fun ch => xorb neg (existsb (fun a => atomMatches ic a ch) cs)) x c
  | Bol => if (endIndex x =? 0)%nat then c x else None
  | Seq r1 r2 => matcher ic r1 x (fun y => matcher ic r2 y c)
  | Alt r1 r2 =>
      match matcher ic r1 x c with
      | Some z => Some z
      | None => matcher ic r2 x c
      end
  | Star greedy r' =>
      (fix loop (n : nat) (x : MatchState) : option MatchState :=
         let again :=
           match n with
           | O => None
           | S n' =>
               matcher ic r' x
                 (fun y => if (endIndex y =? endIndex x)%nat then None
                           else loop n' y)
           end in
         if greedy then
           match again with Some z => Some z | None => c x end
         else
           match c x with Some z => Some z | None => again end)
        (length (rest x)) x
  | Group i r' =>
      matcher ic r' x
        (fun y =>
           c {| endIndex := endIndex y; rest := rest y;
                captures := <[i := Some (take (endIndex y - endIndex x) (rest x))]>
                              (captures y) |})
  end.

(** The result of a successful [exec]: [matched] is element 0 of the result
    array, [groups] its further elements. *)
Record MatchResult := {
  index : nat;
  matched : str;
  groups : list (option str)
}.

(** One attempt at index [idx], where [s] is the input from [idx] on. *)
Definition matchAt (re : RegExp) (idx : nat) (s : str) : option MatchResult :=
  match matcher (flagIgnoreCase re) (source re)
          {| endIndex := idx; rest := s;
             captures := replicate (nCaptures re) None |} Some with
  | Some y => Some {| index := idx; matched := take (endIndex y - idx) s;
                      groups := captures y |}
  | None => None
  end.

(** RegExpBuiltinExec from [lastIndex = idx]: the first index at or after
    [idx] where the pattern matches. *)
Fixpoint execFrom (re : RegExp) (idx : nat) (s : str) : option MatchResult :=
  match matchAt re idx s with
  | Some r => Some r
  | None =>
      match s with
      | [] => None
      | _ :: s' => execFrom re (S idx) s'
      end
  end.

(** [re.exec(s)] on a fresh regular expression, which is also [s.match(re)]
    for a pattern without the [g] flag. *)
Definition exec (re : RegExp) (s : str) : option MatchResult := execFrom re 0 s.

(** [re.test(s)] on a fresh regular expression. *)
Definition test (re : RegExp) (s : str) : bool :=
  match exec re s with Some _ => true | None => false end.

(** ** String methods taking a regular expression *)

Definition isDigit (c : N) : bool := (48 <=? c) && (c <=? 57).
Definition digitVal (c : N) : nat := N.to_nat (c - 48).

(** The text a capture reference stands for: the capture, the empty string
    for a group that did not take part, or the reference itself when there is
    no such group. *)
Definition captureRef (caps : list (option str)) (n : nat) (ref : str) : str :=
  if (1 <=? n)%nat && (n <=? length caps)%nat then
    default [] (mjoin (caps !! (n - 1)%nat))
  else ref.

(** GetSubstitution (22.1.3.19.1) without named captures: [whole] is the
    string searched, [mr] the match, [tpl] the replacement template. *)
Fixpoint getSubstitution (whole : str) (mr : MatchResult) (tpl : str) : str :=
  match tpl with
  | [] => []
  | c :: t =>
    if negb (c =? DOLLAR) then c :: getSubstitution whole mr t
    else
      match t with
      | [] => [c]
      | d :: t' =>
        if d =? DOLLAR then DOLLAR :: getSubstitution whole mr t'
        else if d =? 38 (* & *) then matched mr ++ getSubstitution whole mr t'
        else if d =? 96 (* ` *) then
          take (index mr) whole ++ getSubstitution whole mr t'
        else if d =? 39 (* ' *) then
          drop (index mr + length (matched mr)) whole ++ getSubstitution whole mr t'
        else if isDigit d then
          match t' with
          | e :: t'' =>
            if isDigit e
               && (10 * digitVal d + digitVal e <=? length (groups mr))%nat then
              captureRef (groups mr) (10 * digitVal d + digitVal e) [c; d; e]
                ++ getSubstitution whole mr t''
            else
              captureRef (groups mr) (digitVal d) [c; d]
                ++ getSubstitution whole mr t'
          | [] => captureRef (groups mr) (digitVal d) [c; d]
          end
        else c :: getSubstitution whole mr t
      end
  end.

(** [s.replace(re, tpl)] for a pattern without the [g] flag: the first match
    only. *)
Definition replaceFirst (re : RegExp) (tpl : str) (s : str) : str :=
  match exec re s with
  | Some mr =>
      take (index mr) s ++ getSubstitution s mr tpl
        ++ drop (index mr + length (matched mr)) s
  | None => s
  end.

(** The successive matches of a global pattern, between the characters they
    leave alone.  [lastIndex] is [idx + skip]: after a match the characters it
    covers are skipped, and after an empty match the search moves on by one
    code unit (AdvanceStringIndex). *)
Inductive piece :=
| Gap (c : N)
| Hit (mr : MatchResult).

Fixpoint pieces (re : RegExp) (idx skip : nat) (s : str) : list piece :=
  match skip with
  | S k =>
      match s with
      | [] => []
      | _ :: s' => pieces re (S idx) k s'
      end
  | O =>
      match matchAt re idx s with
      | Some mr =>
          Hit mr ::
          match s with
          | [] => []
          | ch :: s' =>
              match length (matched mr) with
              | O => Gap ch :: pieces re (S idx) 0 s'
              | S k => pieces re (S idx) k s'
              end
          end
      | None =>
          match s with
          | [] => []
          | ch :: s' => Gap ch :: pieces re (S idx) 0 s'
          end
      end
  end.

Definition pieceOut (whole tpl : str) (p : piece) : str :=
  match p with
  | Gap c => [c]
  | Hit mr => getSubstitution whole mr tpl
  end.

(** [s.replace(re, tpl)] for a pattern with the [g] flag: every match.  The
    method starts by setting [lastIndex] to 0, whatever an earlier [test]
    left there. *)
Definition replaceAll (re : RegExp) (tpl : str) (s : str) : str :=
  concat (map (pieceOut s tpl) (pieces re 0 0 s)).

Definition replace (re : RegExp) (tpl : str) (s : str) : str :=
  if flagGlobal re then replaceAll re tpl s else replaceFirst re tpl s.

(** [s.split(re)] for a pattern without groups (22.2.6.14): [acc] holds the
    piece being collected, latest character first; a match that is empty and
    sits where the piece starts does not split, and no match is tried at the
    end of the string. *)
Fixpoint splitFrom (re : RegExp) (idx skip : nat) (acc : str) (s : str)
    : list str :=
  match s with
  | [] => [rev acc]
  | ch :: s' =>
    match skip with
    | S k => splitFrom re (S idx) k acc s'
    | O =>
      match matchAt re idx s with
      | Some mr =>
          match length (matched mr), acc with
          | O, [] => splitFrom re (S idx) 0 [ch] s'
          | O, _ => rev acc :: splitFrom re (S idx) 0 [ch] s'
          | S k, _ => rev acc :: splitFrom re (S idx) k [] s'
          end
      | None => splitFrom re (S idx) 0 (ch :: acc) s'
      end
    end
  end.

Definition split (re : RegExp) (s : str) : list str :=
  match s with
  | [] => if test re [] then [] else [[]]
  | _ => splitFrom re 0 0 [] s
  end.

(** ** Literals and patterns *)

Definition QUOTE : N := 34.

(** A template literal of the source; the double quote is written [~] here,
    a character neither script contains. *)
Definition tpl (s : string) : str :=
  map (fun c => if c =? 126 then QUOTE else c) (js s).

Definition Cat (rs : list regex) : regex := foldr Seq Eps rs.

(** [[^c]] *)
Definition notChr (c : string) : regex := Class true (map CChar (js c)).

Definition mkRegExp (r : regex) (n : nat) (g i : bool) : RegExp :=
  {| source := r; nCaptures := n; flagGlobal := g; flagIgnoreCase := i |}.

(** ** The file system, the console and the external commands *)

(** An entry of a zip archive: its name (the path inside the archive),
    whether it is a directory, its data, and whether it is stored without
    compression (method 0). *)
Record Entry := {
  entryName : str;
  entryDir : bool;
  entryData : str;
  entryStored : bool
}.

(** What sits at a path: a file read and written as text, a zip archive
    (kept as its entries, first entry first; the scripts never read one as
    text), or a directory.  A directory with something in it need not have a
    node of its own. *)
Inductive Node :=
| File (text : str)
| Zip (entries : list Entry)
| Dir.

Definition SLASH : N := 47.

(** [path.join(dir, name)], for a [name] without [.] or [..] segments;
    [path.join(__dirname, '..', x)] is [join projectRoot x]. *)
Definition join (dir name : str) : str := dir ++ SLASH :: name.

(** [p] lies below the directory [dir]. *)
Definition under (dir p : str) : bool := startsWith p (dir ++ [SLASH]).

Definition atOrUnder (dir p : str) : bool := bool_decide (p = dir) || under dir p.

Definition existsSync (fs : gmap str Node) (p : str) : bool :=
  existsb (fun kv => atOrUnder p kv.1) (map_to_list fs).

Fixpoint upToSlash (s : str) : str :=
  match s with
  | [] => []
  | c :: s' => if c =? SLASH then [] else c :: upToSlash s'
  end.

(** The name under which [p] shows in a listing of [dir]. *)
Definition childName (dir p : str) : option str :=
  if under dir p then Some (upToSlash (drop (length dir + 1) p)) else None.

(** [fs.readdirSync(dir)] *)
Definition readdirSync (fs : gmap str Node) (dir : str) : list str :=
  remove_dups (omap (fun kv => childName dir kv.1) (map_to_list fs)).

(** The external commands the scripts run, with the command line of each. *)
Inductive Cmd :=
| RmRf (dir : str)
| Unzip (archive dir : str)
| FindOpf (dir : str)
| NpmTest
| ZipEpub (dir out : str) (names : list str)
| ZipEpubAll (dir out : str)
| ZipPlain (dir out : str).

Definition quoted (p : str) : str := QUOTE :: p ++ [QUOTE].

Definition cmdLine (c : Cmd) : str :=
  match c with
  | RmRf dir => js "rm -rf " ++ quoted dir
  | Unzip archive dir => js "unzip -q " ++ quoted archive ++ js " -d " ++ quoted dir
  | FindOpf dir => js "find " ++ quoted dir ++ tpl " -name ~*.opf~ -type f"
  | NpmTest => js "npm test"
  | ZipEpub dir out names =>
      js "cd " ++ quoted dir ++ js " && zip -X0 " ++ quoted out
        ++ js " mimetype && zip -rg " ++ quoted out
        ++ concat (map (fun n => js " " ++ n) names)
  | ZipEpubAll dir out =>
      js "cd " ++ quoted dir ++ js " && zip -X0 " ++ quoted out
        ++ js " mimetype && zip -rg " ++ quoted out ++ js " * -x mimetype"
  | ZipPlain dir out =>
      js "cd " ++ quoted dir ++ js " && zip -r " ++ quoted out ++ js " *"
  end.

(** What a command leaves behind: the message of its failure if it failed,
    its standard output, and the file system after it. *)
Record Done := {
  failure : option str;
  stdout : str;
  after : gmap str Node
}.

(** The machine the script runs on, as far as its commands go. *)
Definition Shell := Cmd -> gmap str Node -> Done.

Record World := {
  fs : gmap str Node;
  stderr : list str;      (* the lines of [console.error] *)
  ran : list Cmd          (* the commands run, in order *)
}.

(** How a stretch of a script ends: with a value, by throwing, or in
    [process.exit]. *)
Inductive Outcome (A : Type) :=
| Ret (a : A)
| Throw (message : str)
| Exit (code : Z).
Arguments Ret {A} a.
Arguments Throw {A} message.
Arguments Exit {A} code.

Definition Proc (A : Type) : Type := World -> Outcome A * World.

Definition ret {A} (a : A) : Proc A := fun w => (Ret a, w).

Definition bind {A B} (m : Proc A) (k : A -> Proc B) : Proc B :=
  fun w =>
    match m w with
    | (Ret a, w') => k a w'
    | (Throw e, w') => (Throw e, w')
    | (Exit c, w') => (Exit c, w')
    end.

Notation "x <- m ;; k" := (bind m (fun x => k))
  (at level 100, m at next level, right associativity).
Notation "m ;; k" := (bind m (fun _ => k))
  (at level 100, right associativity).

(** [try { body } catch (error) { handler }]: [process.exit] is not caught. *)
Definition tryCatch {A} (body : Proc A) (handler : str -> Proc A) : Proc A :=
  fun w =>
    match body w with
    | (Throw e, w') => handler e w'
    | r => r
    end.

Definition exit {A} (code : Z) : Proc A := fun w => (Exit code, w).

Definition throw {A} (message : str) : Proc A := fun w => (Throw message, w).

Definition consoleError (line : str) : Proc unit :=
  fun w => (Ret tt, {| fs := fs w; stderr := stderr w ++ [line]; ran := ran w |}).

Definition exists_ (p : str) : Proc bool := fun w => (Ret (existsSync (fs w) p), w).

(** [fs.mkdirSync(p, { recursive: true })] *)
Definition mkdirSync (p : str) : Proc unit :=
  fun w =>
    (Ret tt,
     {| fs := if existsSync (fs w) p then fs w else <[p := Dir]> (fs w);
        stderr := stderr w; ran := ran w |}).

(** [fs.readFileSync(p, 'utf8')]; it throws where there is no file. *)
Definition readFileSync (p : str) : Proc str :=
  fun w =>
    match fs w !! p with
    | Some (File text) => (Ret text, w)
    | _ => (Throw (js "ENOENT: no such file or directory, open " ++ p), w)
    end.

(** [fs.writeFileSync(p, text)], in a tree the script can write to. *)
Definition writeFileSync (p text : str) : Proc unit :=
  fun w => (Ret tt, {| fs := <[p := File text]> (fs w);
                       stderr := stderr w; ran := ran w |}).

Definition readdir (dir : str) : Proc (list str) :=
  fun w => (Ret (readdirSync (fs w) dir), w).

(** [fs.statSync(p)], of which the scripts only print the size. *)
Definition statSync (p : str) : Proc unit :=
  fun w =>
    if existsSync (fs w) p then (Ret tt, w)
    else (Throw (js "ENOENT: no such file or directory, stat " ++ p), w).

(** [await execPromise(cmd)]: the standard output, or the failure thrown. *)
Definition execPromise (sh : Shell) (cmd : Cmd) : Proc str :=
  fun w =>
    let d := sh cmd (fs w) in
    let w' := {| fs := after d; stderr := stderr w; ran := ran w ++ [cmd] |} in
    match failure d with
    | Some message => (Throw message, w')
    | None => (Ret (stdout d), w')
    end.

(** The exit status of the process and the world it leaves; [unhandled] is
    what becomes of an exception nothing caught. *)
Definition runScript (main : Proc unit) (unhandled : str -> Proc unit) (w : World)
    : Z * World :=
  match tryCatch main unhandled w with
  | (Ret _, w') => (0%Z, w')
  | (Exit c, w') => (c, w')
  | (Throw _, w') => (1%Z, w')
  end.

(** *** The commands on a POSIX machine with Info-ZIP

    A model of what the commands do when nothing is in their way: [zip]
    adds to the archive named, replacing an entry of the same name where it
    stands and putting a new one last; the site generator behind [npm test]
    is not part of it. *)

Definition ok (out : str) (fs : gmap str Node) : Done :=
  {| failure := None; stdout := out; after := fs |}.

Definition failed (message : str) (fs : gmap str Node) : Done :=
  {| failure := Some message; stdout := []; after := fs |}.

Definition rmRf (dir : str) (fs : gmap str Node) : gmap str Node :=
  filter (fun kv => atOrUnder dir kv.1 = false) fs.

Definition extract (dir : str) (fs : gmap str Node) (e : Entry) : gmap str Node :=
  <[join dir (entryName e) := if entryDir e then Dir else File (entryData e)]> fs.

Definition unzip (archive dir : str) (fs : gmap str Node) : Done :=
  match fs !! archive with
  | Some (Zip es) => ok [] (foldl (extract dir) fs es)
  | _ => failed (js "unzip:  cannot find or open " ++ archive) fs
  end.

Fixpoint endsWith (s p : str) : bool :=
  bool_decide (s = p) ||
  match s with
  | [] => false
  | _ :: s' => endsWith s' p
  end.

Definition isFileNode (n : Node) : bool :=
  match n with
  | Dir => false
  | _ => true
  end.

Definition findOpf (dir : str) (fs : gmap str Node) : Done :=
  ok (concat (omap (fun kv : str * Node =>
                      if atOrUnder dir kv.1 && endsWith kv.1 (js ".opf")
                         && isFileNode kv.2
                      then Some (kv.1 ++ [LF]) else None)
                (map_to_list fs))) fs.

Definition entryOfNode (name : str) (stored : bool) (n : Node) : Entry :=
  match n with
  | File text => {| entryName := name; entryDir := false; entryData := text;
                    entryStored := stored |}
  | Zip _ => {| entryName := name; entryDir := false; entryData := [];
                entryStored := stored |}
  | Dir => {| entryName := name; entryDir := true; entryData := [];
              entryStored := true |}
  end.

(** The entry [zip] makes of [name] in [dir], if there is such a thing. *)
Definition entryOf (fs : gmap str Node) (dir name : str) (stored : bool)
    : option Entry :=
  match fs !! join dir name with
  | Some n => Some (entryOfNode name stored n)
  | None =>
      if existsSync fs (join dir name) then Some (entryOfNode name stored Dir)
      else None
  end.

(** The entries [zip -r] makes of [name] in [dir] and of all that is below
    it. *)
Definition entriesBelow (fs : gmap str Node) (dir name : str) : list Entry :=
  omap (fun kv : str * Node =>
          if atOrUnder (join dir name) kv.1
          then Some (entryOfNode (drop (length dir + 1) kv.1) false kv.2)
          else None)
    (map_to_list fs).

Definition sameName (e e' : Entry) : bool :=
  bool_decide (entryName e = entryName e').

Definition zipAdd (es : list Entry) (e : Entry) : list Entry :=
  if existsb (sameName e) es
  then map (fun e' => if sameName e e' then e else e') es
  else es ++ [e].

(** The archive [zip] is to add to: none yet, or the one that is there. *)
Definition openArchive (fs : gmap str Node) (out : str) : option (list Entry) :=
  match fs !! out with
  | None => Some []
  | Some (Zip es) => Some es
  | Some _ => None
  end.

(** What the shell makes of [*] in [dir]. *)
Definition glob (fs : gmap str Node) (dir : str) : list str :=
  filter (fun n => head n <> Some 46) (readdirSync fs dir).

(** [zip -X0 out mimetype && zip -rg out names], run in [dir]. *)
Definition zipEpub (dir out : str) (names : list str) (fs : gmap str Node)
    : Done :=
  match openArchive fs out, entryOf fs dir (js "mimetype") true with
  | Some es, Some e =>
      let fs1 := <[out := Zip (zipAdd es e)]> fs in
      match concat (map (entriesBelow fs dir) names) with
      | [] => failed (js "zip error: Nothing to do!") fs1
      | more => ok [] (<[out := Zip (foldl zipAdd (zipAdd es e) more)]> fs)
      end
  | _, _ => failed (js "zip error: Nothing to do!") fs
  end.

(** [zip -r out *], run in [dir]. *)
Definition zipPlain (dir out : str) (fs : gmap str Node) : Done :=
  match openArchive fs out, concat (map (entriesBelow fs dir) (glob fs dir)) with
  | Some es, e :: more => ok [] (<[out := Zip (foldl zipAdd es (e :: more))]> fs)
  | _, _ => failed (js "zip error: Nothing to do!") fs
  end.

Definition posix : Shell :=
  fun cmd fs =>
    match cmd with
    | RmRf dir => ok [] (rmRf dir fs)
    | Unzip archive dir => unzip archive dir fs
    | FindOpf dir => findOpf dir fs
    | NpmTest => failed (js "Command failed: npm test") fs
    | ZipEpub dir out names => zipEpub dir out names fs
    | ZipEpubAll dir out =>
        zipEpub dir out
          (filter (fun n => n <> js "mimetype") (glob fs dir)) fs
    | ZipPlain dir out => zipPlain dir out fs
    end.

(** ** The EPUB build script *)

Module BuildEpub.

(** What the script takes from its surroundings: the clock readings
    ([new Date().toISOString()] up to its [T] when the module loads and when
    the archive is named, in full when the package document is written,
    [Date.now()]) and the directory above [__dirname]. *)
Record Env := {
  loadDate : str;
  loadMillis : N;
  opfInstant : str;
  zipDate : str;
  projectRoot : str
}.

Record Metadata := {
  title : str;
  author : str;
  translator : str;
  language : str;
  publisher : str;
  rights : str;
  description : str;
  subject : str;
  date : str;
  identifier : str
}.

Definition metadata (env : Env) : Metadata := {|
  title := js "فقط برای تفریح";
  author := js "لینوس توروالدز و دیوید دیاموند";
  translator := js "جادی میرمیرانی";
  language := js "fa";
  publisher := js "LinuxStory.ir";
  rights := js "CC0 1.0 Universal";
  description := js "داستان زندگی لینوس توروالدز، خالق لینوکس";
  subject := js "کامپیوتر، برنامه‌نویسی، لینوکس، نرم‌افزار آزاد";
  date := loadDate env;
  identifier := js "linuxstory-persian-" ++ numToString (loadMillis env)
|}.

(** A chapter record, as pushed on [chapters]. *)
Record Chapter := {
  chapter : str;
  chTitle : str;
  filename : str;
  content : str
}.

Definition mimetypeText : str := js "application/epub+zip".

Definition containerXml : str := tpl
"<?xml version=~1.0~ encoding=~UTF-8~?>
<container version=~1.0~ xmlns=~urn:oasis:names:tc:opendocument:xmlns:container~>
  <rootfiles>
    <rootfile full-path=~OEBPS/content.opf~ media-type=~application/oebps-package+xml~/>
  </rootfiles>
</container>".

Definition displayOptions : str := tpl
"<?xml version=~1.0~ encoding=~UTF-8~?>
<display_options>
  <platform name=~*~>
    <option name=~specified-fonts~>true</option>
    <option name=~page-progression-direction~>rtl</option>
  </platform>
</display_options>".

Definition css : str := tpl
"/* Apple Books optimized CSS for Persian text */
@charset ~UTF-8~;

/* Import Vazirmatn font */
@import url('https://fonts.googleapis.com/css2?family=Vazirmatn:wght@100;200;300;400;500;600;700;800;900&display=swap');

/* RTL support */
html {
  direction: rtl;
  text-align: right;
}

body {
  font-family: 'Vazirmatn', -apple-system, ~Helvetica Neue~, Arial, sans-serif;
  font-size: 1em;
  line-height: 1.8;
  margin: 0;
  padding: 0;
  direction: rtl;
  text-align: right;
}

/* Headings */
h1, h2, h3, h4, h5, h6 {
  font-family: 'Vazirmatn', -apple-system, ~Helvetica Neue~, Arial, sans-serif;
  font-weight: 700;
  margin-top: 1em;
  margin-bottom: 0.5em;
  page-break-after: avoid;
  direction: rtl;
  text-align: right;
}

h1 {
  font-size: 1.8em;
  text-align: center;
  margin-top: 2em;
  margin-bottom: 1em;
}

h2 {
  font-size: 1.4em;
}

h3 {
  font-size: 1.2em;
}

/* Paragraphs */
p {
  margin: 0.5em 0 1em 0;
  text-indent: 0;
  direction: rtl;
  text-align: right;
}

/* Lists */
ul, ol {
  margin: 1em 0;
  padding-right: 2em;
  padding-left: 0;
  direction: rtl;
}

li {
  margin: 0.5em 0;
  direction: rtl;
}

/* Links */
a {
  color: #007AFF;
  text-decoration: none;
}

a:hover {
  text-decoration: underline;
}

/* Code blocks */
pre, code {
  font-family: ~SF Mono~, Monaco, Consolas, monospace;
  font-size: 0.9em;
  direction: ltr;
  text-align: left;
  background-color: #f5f5f5;
  padding: 0.2em 0.4em;
  border-radius: 3px;
}

pre {
  padding: 1em;
  overflow-x: auto;
  margin: 1em 0;
}

/* Blockquotes */
blockquote {
  margin: 1em 0;
  padding-right: 1em;
  padding-left: 0;
  border-right: 3px solid #ccc;
  border-left: none;
  font-style: italic;
  direction: rtl;
}

/* Images */
img {
  max-width: 100%;
  height: auto;
  display: block;
  margin: 1em auto;
}

/* Page breaks */
.chapter {
  page-break-before: always;
}

/* Horizontal rules */
hr {
  margin: 2em 0;
  border: none;
  border-top: 1px solid #ccc;
}

/* Apple Books specific optimizations */
@media screen and (min-device-width: 768px) {
  body {
    font-size: 1.1em;
  }
}

/* Dark mode support */
@media (prefers-color-scheme: dark) {
  body {
    background-color: #1c1c1e;
    color: #ffffff;
  }
  
  pre, code {
    background-color: #2c2c2e;
    color: #ffffff;
  }
  
  a {
    color: #0A84FF;
  }
  
  blockquote {
    border-right-color: #48484a;
  }
  
  hr {
    border-top-color: #48484a;
  }
}".

(** *** createOPF *)

Definition chapterId (index : nat) : str :=
  js "chapter" ++ numToString (N.of_nat (index + 1)).

Definition manifestItem (index : nat) (ch : Chapter) : str :=
  tpl "    <item id=~" ++ chapterId index ++ tpl "~ href=~chapters/" ++ filename ch
    ++ tpl "~ media-type=~application/xhtml+xml~/>
".

Definition spineItem (index : nat) : str :=
  tpl "    <itemref idref=~" ++ chapterId index ++ tpl "~/>
".

Definition cssItem : str := tpl
"    <item id=~css~ href=~css/style.css~ media-type=~text/css~/>
".

Definition navItem : str := tpl
"    <item id=~nav~ href=~nav.xhtml~ media-type=~application/xhtml+xml~ properties=~nav~/>
".

Definition navItemref : str := tpl
"    <itemref idref=~nav~ linear=~no~/>
".

(** The two accumulators of the [forEach] of [createOPF]. *)
Definition opfStep (acc : str * str) (ic : nat * Chapter) : str * str :=
  (acc.1 ++ manifestItem ic.1 ic.2, acc.2 ++ spineItem ic.1).

Definition opfLoop (chapters : list Chapter) : str * str :=
  foldl opfStep (cssItem, []) (imap pair chapters).

Definition opfHead (md : Metadata) (instant : str) : str :=
  tpl "<?xml version=~1.0~ encoding=~UTF-8~?>
<package xmlns=~http://www.idpf.org/2007/opf~ version=~3.0~ unique-identifier=~uid~>
  <metadata xmlns:dc=~http://purl.org/dc/elements/1.1/~>
    <dc:identifier id=~uid~>" ++ identifier md ++ tpl "</dc:identifier>
    <dc:title>" ++ title md ++ tpl "</dc:title>
    <dc:creator>" ++ author md ++ tpl "</dc:creator>
    <dc:contributor>ترجمه: " ++ translator md ++ tpl "</dc:contributor>
    <dc:language>" ++ language md ++ tpl "</dc:language>
    <dc:publisher>" ++ publisher md ++ tpl "</dc:publisher>
    <dc:rights>" ++ rights md ++ tpl "</dc:rights>
    <dc:description>" ++ description md ++ tpl "</dc:description>
    <dc:subject>" ++ subject md ++ tpl "</dc:subject>
    <dc:date>" ++ date md ++ tpl "</dc:date>
    <meta property=~dcterms:modified~>" ++ instant ++ tpl "</meta>
    <meta name=~apple:specified-fonts~ content=~true~/>
    <meta name=~ibooks:version~ content=~1.0~/>
  </metadata>
  
".

Definition manifestOpen : str := tpl "  <manifest>
".
Definition manifestClose : str := tpl "  </manifest>
  
".
Definition spineOpen : str := tpl "  <spine page-progression-direction=~rtl~>
".
Definition spineClose : str := tpl "  </spine>
</package>".

(** The text [createOPF] writes to [OEBPS/content.opf]. *)
Definition opfText (env : Env) (chapters : list Chapter) : str :=
  let '(manifest, spine) := opfLoop chapters in
  opfHead (metadata env) (opfInstant env)
    ++ manifestOpen ++ navItem ++ manifest ++ manifestClose
    ++ spineOpen ++ navItemref ++ spine ++ spineClose.

(** *** createNav *)

Record NavState := {
  navItems : str;
  currentChapter : str;
  chapterItems : str
}.

(** One finished group: the link (to the file of the record named by
    [href]) and the nested list of its entries. *)
Definition navGroup (href name items : str) : str :=
  tpl "      <li><a href=~chapters/" ++ href ++ tpl "~>" ++ name ++ tpl "</a>
        <ol>
" ++ items ++ tpl "        </ol>
      </li>
".

Definition navEntry (ch : Chapter) : str :=
  tpl "          <li><a href=~chapters/" ++ filename ch ++ tpl "~>" ++ chTitle ch
    ++ tpl "</a></li>
".

(** [chapters[index-1]]; [None] is the [TypeError] of reading [.filename]
    off [undefined]. *)
Definition previous (chapters : list Chapter) (index : nat) : option Chapter :=
  match index with
  | O => None
  | S i => chapters !! i
  end.

(** The callback of the [forEach] of [createNav]. *)
Definition navStep (chapters : list Chapter) (st : NavState) (index : nat)
    (ch : Chapter) : option NavState :=
  st' ←
    (if decide (chapter ch ≠ currentChapter st) then
       items ←
         (if decide (currentChapter st ≠ []) then
            prev ← previous chapters index;
            Some (navItems st
                    ++ navGroup (filename prev) (currentChapter st) (chapterItems st))
          else Some (navItems st));
       Some {| navItems := items; currentChapter := chapter ch; chapterItems := [] |}
     else Some st);
  Some {| navItems := navItems st'; currentChapter := currentChapter st';
          chapterItems := chapterItems st' ++ navEntry ch |}.

Fixpoint navLoop (chapters : list Chapter) (st : NavState) (index : nat)
    (todo : list Chapter) : option NavState :=
  match todo with
  | [] => Some st
  | ch :: todo' =>
      st' ← navStep chapters st index ch;
      navLoop chapters st' (S index) todo'
  end.

Definition navInit : NavState :=
  {| navItems := []; currentChapter := []; chapterItems := [] |}.

(** The value of [navItems] when the template is filled in. *)
Definition navItemsOf (chapters : list Chapter) : option str :=
  st ← navLoop chapters navInit 0 chapters;
  if decide (currentChapter st ≠ []) then
    lastCh ← previous chapters (length chapters);
    Some (navItems st
            ++ navGroup (filename lastCh) (currentChapter st) (chapterItems st))
  else Some (navItems st).

Definition navHead : str := tpl
"<?xml version=~1.0~ encoding=~UTF-8~?>
<!DOCTYPE html>
<html xmlns=~http://www.w3.org/1999/xhtml~ xmlns:epub=~http://www.idpf.org/2007/ops~ xml:lang=~fa~ dir=~rtl~>
<head>
  <meta charset=~UTF-8~/>
  <title>فهرست</title>
  <link rel=~stylesheet~ type=~text/css~ href=~css/style.css~/>
</head>
<body>
  <nav epub:type=~toc~>
    <h1>فهرست</h1>
    <ol>
".

Definition navFoot : str := tpl
"    </ol>
  </nav>
</body>
</html>".

(** The text [createNav] writes to [OEBPS/nav.xhtml]; [None] when the
    function throws. *)
Definition navText (chapters : list Chapter) : option str :=
  items ← navItemsOf chapters;
  Some (navHead ++ items ++ navFoot).

(** *** htmlToXHTML *)

Definition reDoctype : RegExp :=
  mkRegExp (Cat [Lit (js "<!DOCTYPE"); Star true (notChr ">"); Lit (js ">")])
    0 true true.
Definition reBr : RegExp := mkRegExp (Lit (js "<br>")) 0 true true.
Definition reHr : RegExp := mkRegExp (Lit (js "<hr>")) 0 true true.
(** [/<img([^>]*?)>/gi], and the same for [meta] and [link] *)
Definition reVoid (name : string) : RegExp :=
  mkRegExp (Cat [Lit (js "<" ++ js name); Group 0 (Star false (notChr ">"));
                 Lit (js ">")]) 1 true true.
Definition reNbsp : RegExp := mkRegExp (Lit (js "&nbsp;")) 0 true true.
Definition reCopy : RegExp := mkRegExp (Lit (js "&copy;")) 0 true true.

(** The rewriting of [html] by the eight [replace] calls. *)
Definition normalize (html : str) : str :=
  let html := replace reDoctype [] html in
  let html := replace reBr (js "<br/>") html in
  let html := replace reHr (js "<hr/>") html in
  let html := replace (reVoid "img") (js "<img$1/>") html in
  let html := replace (reVoid "meta") (js "<meta$1/>") html in
  let html := replace (reVoid "link") (js "<link$1/>") html in
  let html := replace reNbsp (js "&#160;") html in
  replace reCopy (js "&#169;") html.

Definition xhtmlHead (title : str) : str :=
  tpl "<?xml version=~1.0~ encoding=~UTF-8~?>
<!DOCTYPE html>
<html xmlns=~http://www.w3.org/1999/xhtml~ xml:lang=~fa~ dir=~rtl~>
<head>
  <meta charset=~UTF-8~/>
  <title>" ++ title ++ tpl "</title>
  <link rel=~stylesheet~ type=~text/css~ href=~../css/style.css~/>
</head>
<body>
  <div class=~chapter~>
".

Definition xhtmlFoot : str := tpl "
  </div>
</body>
</html>".

Definition htmlToXHTML (html title : str) : str :=
  xhtmlHead title ++ normalize html ++ xhtmlFoot.

(** *** The chapter loops of buildEPUB *)

(** [/<body[^>]*>([\s\S]*?)<\/body\s*>/] *)
Definition reBody : RegExp :=
  mkRegExp (Cat [Lit (js "<body"); Star true (notChr ">"); Lit (js ">");
                 Group 0 (Star false (Class false [CSpace; CNonSpace]));
                 Lit (js "</body"); Star true (Class false [CSpace]);
                 Lit (js ">")]) 1 false false.

Definition reH1 : RegExp := mkRegExp (Lit (js "<h1 >")) 0 false false.
Definition reH2 : RegExp := mkRegExp (Lit (js "<h2 >")) 0 false false.

(** [/^([^<]+)<\/h1[^>]*>/], and the same for [h2] *)
Definition reHeading (name : string) : RegExp :=
  mkRegExp (Cat [Bol; Group 0 (Plus true (notChr "<"));
                 Lit (js "</" ++ js name); Star true (notChr ">");
                 Lit (js ">")]) 1 false false.

(** [/<h2 >|<h1 >|<hr><b>فقط برای تفریح/] *)
Definition reEnd : RegExp :=
  mkRegExp (Alt (Lit (js "<h2 >"))
             (Alt (Lit (js "<h1 >")) (Lit (js "<hr><b>فقط برای تفریح"))))
    0 false false.

(** The variables the loops update, and the files they write (path under
    [OEBPS/chapters] and text, latest last). *)
Record LoopState := {
  chapters : list Chapter;
  chapterIndex : nat;
  written : list (str * str)
}.

(** [m[1]] of a match result *)
Definition group1 (mr : MatchResult) : str :=
  default [] (mjoin (groups mr !! 0%nat)).

(** The title of a section and its content cut where the section ends: what
    the inner [for] holds in [title] and [content] before it trims the
    content.  [None] is the [continue] of a heading without a title. *)
Definition sectionOf (h2Part : str) : option (str * str) :=
  match exec (reHeading "h2") h2Part with
  | None => None
  | Some titleMatch =>
      let title := trim (group1 titleMatch) in
      let content := substringFrom h2Part (length (matched titleMatch)) in
      Some (title,
            match exec reEnd content with
            | Some endMatch => substringTo content (index endMatch)
            | None => content
            end)
  end.

(** The body of the inner [for], for [h2Part = h2Parts[j]]. *)
Definition sectionStep (chapterName : str) (st : LoopState) (h2Part : str)
    : LoopState :=
  match sectionOf h2Part with
  | None => st
  | Some (title, content) =>
      let content := trim content in
      match content with
      | [] => st
      | _ =>
          let chapterIndex := S (chapterIndex st) in
          let filename :=
            js "chapter" ++ numToString (N.of_nat chapterIndex) ++ js ".xhtml" in
          let xhtmlContent :=
            htmlToXHTML (js "<h1>" ++ chapterName ++ tpl "</h1>
<h2>" ++ title ++ tpl "</h2>
" ++ content) title in
          {| chapters := chapters st ++
               [{| chapter := chapterName; chTitle := title;
                   filename := filename; content := content |}];
             chapterIndex := chapterIndex;
             written := written st ++ [(filename, xhtmlContent)] |}
      end
  end.

(** The body of the outer [for], for [part = parts[i]]. *)
Definition chapterStep (st : LoopState) (part : str) : LoopState :=
  match exec (reHeading "h1") part with
  | None => st
  | Some chapterNameMatch =>
      let chapterName := trim (group1 chapterNameMatch) in
      let remainingContent := substringFrom part (length (matched chapterNameMatch)) in
      let h2Parts := split reH2 remainingContent in
      foldl (sectionStep chapterName) st (drop 1 h2Parts)
  end.

(** Both loops, from [bodyContent]. *)
Definition processBody (bodyContent : str) : LoopState :=
  let parts := split reH1 bodyContent in
  foldl chapterStep {| chapters := []; chapterIndex := 0; written := [] |}
    (drop 1 parts).

(** *** The script, step by step *)

Fixpoint forEach {A} (l : list A) (f : A -> Proc unit) : Proc unit :=
  match l with
  | [] => ret tt
  | a :: l' => f a;; forEach l' f
  end.

Definition outputDir (env : Env) : str :=
  join (join (projectRoot env) (js "out")) (js "epub-build").
Definition staticDir (env : Env) : str :=
  join (join (projectRoot env) (js "src")) (js "static").
Definition allHtmlPath (env : Env) : str :=
  join (join (projectRoot env) (js "out")) (js "all.html").
Definition chaptersDir (env : Env) : str :=
  join (join (outputDir env) (js "OEBPS")) (js "chapters").
Definition epubFilename (env : Env) : str :=
  js "justforfun_persian_apple_" ++ zipDate env ++ js ".epub".
Definition epubPath (env : Env) : str := join (staticDir env) (epubFilename env).

Definition createDirectories (env : Env) : Proc unit :=
  let dirs := [
    outputDir env;
    join (outputDir env) (js "META-INF");
    join (outputDir env) (js "OEBPS");
    join (join (outputDir env) (js "OEBPS")) (js "css");
    join (join (outputDir env) (js "OEBPS")) (js "chapters")
  ] in
  forEach dirs (fun dir =>
    there <- exists_ dir;;
    if negb there then mkdirSync dir else ret tt).

Definition createMimetype (env : Env) : Proc unit :=
  writeFileSync (join (outputDir env) (js "mimetype")) mimetypeText.

Definition createContainer (env : Env) : Proc unit :=
  writeFileSync (join (join (outputDir env) (js "META-INF")) (js "container.xml"))
    containerXml.

Definition createDisplayOptions (env : Env) : Proc unit :=
  writeFileSync
    (join (join (outputDir env) (js "META-INF"))
       (js "com.apple.ibooks.display-options.xml"))
    displayOptions.

Definition createCSS (env : Env) : Proc unit :=
  writeFileSync
    (join (join (join (outputDir env) (js "OEBPS")) (js "css")) (js "style.css"))
    css.

Definition createOPF (env : Env) (chapters : list Chapter) : Proc unit :=
  writeFileSync (join (join (outputDir env) (js "OEBPS")) (js "content.opf"))
    (opfText env chapters).

Definition createNav (env : Env) (chapters : list Chapter) : Proc unit :=
  match navText chapters with
  | Some nav =>
      writeFileSync (join (join (outputDir env) (js "OEBPS")) (js "nav.xhtml")) nav
  | None => throw (js "TypeError: Cannot read properties of undefined (reading 'filename')")
  end.

(** The [writeFileSync] calls of the chapter loops. *)
Definition writeChapters (env : Env) (files : list (str * str)) : Proc unit :=
  forEach files (fun file => writeFileSync (join (chaptersDir env) file.1) file.2).

Definition buildEPUB (sh : Shell) (env : Env) : Proc unit :=
  createDirectories env;;
  there <- exists_ (allHtmlPath env);;
  (if negb there then
     tryCatch (_ <- execPromise sh NpmTest;; ret tt)
       (fun message =>
          consoleError (js "❌ Error generating site: " ++ message);;
          exit 1)
   else ret tt);;
  createMimetype env;;
  createContainer env;;
  createDisplayOptions env;;
  createCSS env;;
  allHtml <- readFileSync (allHtmlPath env);;
  match exec reBody allHtml with
  | None =>
      consoleError (js "❌ Could not find body content");;
      exit 1
  | Some bodyMatch =>
      let bodyContent := group1 bodyMatch in
      let st := processBody bodyContent in
      writeChapters env (written st);;
      createOPF env (chapters st);;
      createNav env (chapters st);;
      tryCatch
        (_ <- execPromise sh
                (ZipEpub (outputDir env) (epubPath env) [js "META-INF"; js "OEBPS"]);;
         statSync (epubPath env);;
         _ <- execPromise sh (RmRf (outputDir env));;
         ret tt)
        (fun message =>
           consoleError (js "❌ Error creating EPUB: " ++ message);;
           exit 1)
  end.

(** [buildEPUB().catch(...)]: the whole run. *)
Definition main (sh : Shell) (env : Env) (w : World) : Z * World :=
  runScript (buildEPUB sh env)
    (fun message => consoleError (js "❌ Build failed: " ++ message);; exit 1) w.

End BuildEpub.

(** ** The metadata patch script *)

Module UpdateEpubMetadata.

Record Metadata := {
  title : str;
  author : str;
  translator : str;
  language : str;
  publisher : str;
  rights : str;
  description : str;
  subject : str
}.

Definition metadata : Metadata := {|
  title := js "فقط برای تفریح";
  author := js "لینوس توروالدز و دیوید دیاموند";
  translator := js "جادی میرمیرانی";
  language := js "fa";
  publisher := js "LinuxStory.ir";
  rights := js "CC0 1.0 Universal";
  description := js "داستان زندگی لینوس توروالدز، خالق لینوکس";
  subject := js "کامپیوتر، برنامه‌نویسی، لینوکس، نرم‌افزار آزاد"
|}.

(** [new RegExp(`<${fullTag}[^>]*>.*?<\/${fullTag}>`, 'gi')], for a tag name
    without pattern syntax in it, as the names the script passes are. *)
Definition tagRegExp (fullTag : str) : RegExp :=
  mkRegExp (Cat [Lit (js "<" ++ fullTag); Star true (notChr ">"); Lit (js ">");
                 Star false Dot; Lit (js "</" ++ fullTag ++ js ">")])
    0 true true.

(** [/<\/metadata>/] *)
Definition closeMetadata : str := js "</metadata>".
Definition reCloseMetadata : RegExp := mkRegExp (Lit closeMetadata) 0 false false.

Definition fullTagOf (namespace tag : str) : str :=
  match namespace with
  | [] => tag
  | _ => namespace ++ js ":" ++ tag
  end.

Definition newTagOf (fullTag attributes value : str) : str :=
  js "<" ++ fullTag ++ attributes ++ js ">" ++ value ++ js "</" ++ fullTag ++ js ">".

(** What is put in the place of [</metadata>] to add a line before it. *)
Definition beforeClose (line : str) : str :=
  js "    " ++ line ++ js "
  </metadata>".

Definition updateMetadataTag (content namespace tag value attributes : str) : str :=
  let fullTag := fullTagOf namespace tag in
  let regex := tagRegExp fullTag in
  let newTag := newTagOf fullTag attributes value in
  if test regex content then replace regex newTag content
  else replace reCloseMetadata (beforeClose newTag) content.

(** The seven calls of [updateMetadataTag]. *)
Definition updateFields (opfContent : str) : str :=
  let opfContent := updateMetadataTag opfContent (js "dc") (js "title") (title metadata) [] in
  let opfContent := updateMetadataTag opfContent (js "dc") (js "creator") (author metadata) [] in
  let opfContent := updateMetadataTag opfContent (js "dc") (js "language") (language metadata) [] in
  let opfContent := updateMetadataTag opfContent (js "dc") (js "publisher") (publisher metadata) [] in
  let opfContent := updateMetadataTag opfContent (js "dc") (js "rights") (rights metadata) [] in
  let opfContent := updateMetadataTag opfContent (js "dc") (js "description") (description metadata) [] in
  updateMetadataTag opfContent (js "dc") (js "subject") (subject metadata) [].

Definition translatorLabel : str := js "ترجمه:".
Definition dateTagStart : str := js "<dc:date>".

Definition addTranslator (opfContent : str) : str :=
  if negb (includes opfContent translatorLabel) then
    replace reCloseMetadata
      (beforeClose (js "<dc:contributor>ترجمه: " ++ translator metadata
                      ++ js "</dc:contributor>")) opfContent
  else opfContent.

(** [today] is [new Date().toISOString().split('T')[0]]. *)
Definition addDate (today : str) (opfContent : str) : str :=
  if negb (includes opfContent dateTagStart) then
    replace reCloseMetadata
      (beforeClose (js "<dc:date>" ++ today ++ js "</dc:date>")) opfContent
  else opfContent.

(** The contributor and date insertions, in the order of the script. *)
Definition addTranslatorAndDate (today : str) (opfContent : str) : str :=
  addDate today (addTranslator opfContent).

(** From the text read from the package document to the text written back. *)
Definition updateOpf (today : str) (opfContent : str) : str :=
  addTranslatorAndDate today (updateFields opfContent).

(** *** The script, step by step *)

(** What the script takes from its surroundings: the day
    ([new Date().toISOString()] up to its [T]) and the directory above
    [__dirname]. *)
Record Env := {
  today : str;
  projectRoot : str
}.

Definition inputFile (env : Env) : str :=
  join (join (join (projectRoot env) (js "src")) (js "static"))
    (js "justforfun_persian_rtl.epub").
Definition outputFile (env : Env) : str :=
  join (join (join (projectRoot env) (js "src")) (js "static"))
    (js "justforfun_persian_rtl_updated.epub").
Definition tempDir (env : Env) : str := join (projectRoot env) (js "temp-epub").
Definition mimetypePath (env : Env) : str := join (tempDir env) (js "mimetype").

Definition possiblePaths (env : Env) : list str := [
  join (tempDir env) (js "content.opf");
  join (join (tempDir env) (js "OEBPS")) (js "content.opf");
  join (join (tempDir env) (js "OPS")) (js "content.opf")
].

(** [s.split('\n')] *)
Fixpoint lines (acc : str) (s : str) : list str :=
  match s with
  | [] => [rev acc]
  | c :: s' => if c =? LF then rev acc :: lines [] s' else lines (c :: acc) s'
  end.

(** The first of the candidate paths that exists, if any. *)
Definition firstExisting (paths : list str) : Proc (option str) :=
  fun w => (Ret (List.find (existsSync (fs w)) paths), w).

(** The package document found by [find], if any: the first non-empty line
    of its output. *)
Definition searchOpf (sh : Shell) (env : Env) : Proc (option str) :=
  out <- execPromise sh (FindOpf (tempDir env));;
  let opfFiles := filter (fun f => f <> []) (lines [] (trim out)) in
  ret (head opfFiles).

(** Lines 131 to 152: the mimetype file is made if it is not there, and the
    archive is put together by the command chosen from the listing. *)
Definition repackage (sh : Shell) (env : Env) : Proc unit :=
  there <- exists_ (mimetypePath env);;
  (if negb there then writeFileSync (mimetypePath env) (js "application/epub+zip")
   else ret tt);;
  files <- readdir (tempDir env);;
  let zipCmd :=
    if bool_decide (js "mimetype" ∈ files)
    then ZipEpubAll (tempDir env) (outputFile env)
    else ZipPlain (tempDir env) (outputFile env) in
  _ <- execPromise sh zipCmd;;
  ret tt.

Definition updateEpubMetadata (sh : Shell) (env : Env) : Proc unit :=
  there <- exists_ (inputFile env);;
  if negb there then
    consoleError (js "❌ Input file not found: " ++ inputFile env);;
    exit 1
  else
    tryCatch
      (stale <- exists_ (tempDir env);;
       (if stale then _ <- execPromise sh (RmRf (tempDir env));; ret tt else ret tt);;
       mkdirSync (tempDir env);;
       _ <- execPromise sh (Unzip (inputFile env) (tempDir env));;
       known <- firstExisting (possiblePaths env);;
       opfPath <- match known with
                  | Some p => ret (Some p)
                  | None => searchOpf sh env
                  end;;
       match opfPath with
       | None =>
           consoleError (js "❌ Could not find OPF file in EPUB");;
           exit 1
       | Some opfPath =>
           opfContent <- readFileSync opfPath;;
           writeFileSync opfPath (updateOpf (today env) opfContent);;
           repackage sh env;;
           _ <- execPromise sh (RmRf (tempDir env));;
           statSync (inputFile env);;
           statSync (outputFile env)
       end)
      (fun message =>
         consoleError (js "❌ Error: " ++ message);;
         stale <- exists_ (tempDir env);;
         (if stale then _ <- execPromise sh (RmRf (tempDir env));; ret tt else ret tt);;
         exit 1).

(** [updateEpubMetadata()]: the whole run; a rejection nothing handles ends
    the process with status 1. *)
Definition main (sh : Shell) (env : Env) (w : World) : Z * World :=
  runScript (updateEpubMetadata sh env) throw w.

End UpdateEpubMetadata.

(** * Vocabulary of the properties *)

(** The words a pattern can consume, whatever the captures and with [^]
    consuming nothing. *)
Inductive Lang (ic : bool) : regex -> str -> Prop :=
| L_Eps : Lang ic Eps []
| L_Chr p ch :
    canonicalize ic p = canonicalize ic ch -> Lang ic (Chr p) [ch]
| L_Dot ch : isLineTerminator ch = false -> Lang ic Dot [ch]
| L_Class neg cs ch :
    xorb neg (existsb (fun a => atomMatches ic a ch) cs) = true ->
    Lang ic (Class neg cs) [ch]
| L_Bol : Lang ic Bol []
| L_Seq r1 r2 w1 w2 :
    Lang ic r1 w1 -> Lang ic r2 w2 -> Lang ic (Seq r1 r2) (w1 ++ w2)
| L_AltL r1 r2 w : Lang ic r1 w -> Lang ic (Alt r1 r2) w
| L_AltR r1 r2 w : Lang ic r2 w -> Lang ic (Alt r1 r2) w
| L_Star0 g r : Lang ic (Star g r) []
| L_StarS g r w1 w2 :
    Lang ic r w1 -> Lang ic (Star g r) w2 -> Lang ic (Star g r) (w1 ++ w2)
| L_Group i r w : Lang ic r w -> Lang ic (Group i r) w.

(** [y] is [x] moved forward over the word [w]. *)
Definition Reaches (x : MatchState) (w : str) (y : MatchState) : Prop :=
  rest x = w ++ rest y /\ endIndex y = (endIndex x + length w)%nat.

(** [s.indexOf(p)], counted from [idx]. *)
Fixpoint indexOfFrom (idx : nat) (s p : str) : option nat :=
  if startsWith s p then Some idx
  else match s with
       | [] => None
       | _ :: s' => indexOfFrom (S idx) s' p
       end.

(** A replacement template without [$] in it. *)
Definition plain (t : str) : bool := forallb (fun c => negb (c =? DOLLAR)) t.

(** The stretch of the input a piece stands for. *)
Definition pieceSrc (p : piece) : str :=
  match p with
  | Gap c => [c]
  | Hit mr => matched mr
  end.

Fixpoint hits (ps : list piece) : list MatchResult :=
  match ps with
  | [] => []
  | Gap _ :: ps' => hits ps'
  | Hit mr :: ps' => mr :: hits ps'
  end.

(** The matches a global pattern finds in [s], in order. *)
Definition matchesOf (re : RegExp) (s : str) : list MatchResult :=
  hits (pieces re 0 0 s).

(** A pattern that is one literal run, without the [i] flag. *)
Definition litRe (p : str) (g : bool) : RegExp := mkRegExp (Lit p) 0 g false.

(** *** The metadata patch *)

(** The seven fields [updateFields] rewrites. *)
Inductive Field :=
  Title | Creator | Language | Publisher | Rights | Description | Subject.

Definition fieldTag (f : Field) : str :=
  match f with
  | Title => js "title"
  | Creator => js "creator"
  | Language => js "language"
  | Publisher => js "publisher"
  | Rights => js "rights"
  | Description => js "description"
  | Subject => js "subject"
  end.

Definition fieldValue (f : Field) : str :=
  let md := UpdateEpubMetadata.metadata in
  match f with
  | Title => UpdateEpubMetadata.title md
  | Creator => UpdateEpubMetadata.author md
  | Language => UpdateEpubMetadata.language md
  | Publisher => UpdateEpubMetadata.publisher md
  | Rights => UpdateEpubMetadata.rights md
  | Description => UpdateEpubMetadata.description md
  | Subject => UpdateEpubMetadata.subject md
  end.

Definition fieldFullTag (f : Field) : str :=
  UpdateEpubMetadata.fullTagOf (js "dc") (fieldTag f).

(** The pattern [updateMetadataTag] builds for the field. *)
Definition fieldRegExp (f : Field) : RegExp :=
  UpdateEpubMetadata.tagRegExp (fieldFullTag f).

(** The freshly built tag of the field, holding the new value. *)
Definition fieldNewTag (f : Field) : str :=
  UpdateEpubMetadata.newTagOf (fieldFullTag f) [] (fieldValue f).

(** The call of [updateMetadataTag] for one field. *)
Definition updateField (f : Field) (content : str) : str :=
  UpdateEpubMetadata.updateMetadataTag content (js "dc") (fieldTag f)
    (fieldValue f) [].

(** The occurrences of the field's tag in a text: what its pattern matches. *)
Definition occurrences (f : Field) (s : str) : list str :=
  map matched (matchesOf (fieldRegExp f) s).

(** The field appears exactly once, holding the new value. *)
Definition ExactlyOnce (f : Field) (s : str) : Prop :=
  occurrences f s = [fieldNewTag f].

(** Equal up to the case of ASCII letters. *)
Definition sameCI (a b : str) : Prop :=
  map (canonicalize true) a = map (canonicalize true) b.

(** A complete occurrence of a tag: the opening tag with its attributes
    through the closing tag, on one line. *)
Definition CompleteTag (fullTag : str) (m : str) : Prop :=
  exists opening attrs body closing,
    m = opening ++ attrs ++ js ">" ++ body ++ closing
    /\ sameCI opening (js "<" ++ fullTag)
    /\ Forall (fun ch => ch <> 62) attrs
    /\ Forall (fun ch => isLineTerminator ch = false) body
    /\ sameCI closing (js "</" ++ fullTag ++ js ">").

(** What a piece of the scan becomes when every match gives way to [new]. *)
Definition pieceNew (new : str) (p : piece) : str :=
  match p with
  | Gap c => [c]
  | Hit _ => new
  end.

(** *** The EPUB build *)

(** The name of the [n]-th chapter file. *)
Definition chapterFile (n : nat) : str :=
  js "chapter" ++ numToString (N.of_nat n) ++ js ".xhtml".

(** The fragment of a record as it is handed to [htmlToXHTML]: the content
    with the two headings put back in front of it. *)
Definition headed (r : BuildEpub.Chapter) : str :=
  js "<h1>" ++ BuildEpub.chapter r ++ tpl "</h1>
<h2>" ++ BuildEpub.chTitle r ++ tpl "</h2>
" ++ BuildEpub.content r.

(** The text of the chapter file of a record. *)
Definition chapterXhtml (r : BuildEpub.Chapter) : str :=
  BuildEpub.xhtmlHead (BuildEpub.chTitle r)
    ++ BuildEpub.normalize (headed r) ++ BuildEpub.xhtmlFoot.

(** What the chapter loops keep true. *)
Record LoopInv (st : BuildEpub.LoopState) : Prop := {
  inv_index : BuildEpub.chapterIndex st = length (BuildEpub.chapters st);
  inv_names :
    map BuildEpub.filename (BuildEpub.chapters st)
    = map chapterFile (seq 1 (length (BuildEpub.chapters st)));
  inv_content :
    Forall (fun r => BuildEpub.content r <> []) (BuildEpub.chapters st);
  inv_written :
    BuildEpub.written st
    = map (fun r => (BuildEpub.filename r, chapterXhtml r)) (BuildEpub.chapters st)
}.

(** The lines of the manifest and of the spine, one per item. *)
Definition manifestLines (chs : list BuildEpub.Chapter) : list str :=
  BuildEpub.navItem :: BuildEpub.cssItem :: imap BuildEpub.manifestItem chs.

Definition spineLines (chs : list BuildEpub.Chapter) : list str :=
  BuildEpub.navItemref :: imap (fun i _ => BuildEpub.spineItem i) chs.

(** The grouping the specification asks of the navigation document: the
    records cut into runs, a new run starting at each record whose group is
    not that of the record just before it.  A run is its first record and the
    ones that follow it. *)
Fixpoint runs (chs : list BuildEpub.Chapter)
    : list (BuildEpub.Chapter * list BuildEpub.Chapter) :=
  match chs with
  | [] => []
  | ch :: rest =>
      match head rest, runs rest with
      | Some next, (h, t) :: rs =>
          if decide (BuildEpub.chapter next = BuildEpub.chapter ch)
          then (ch, h :: t) :: rs
          else (ch, []) :: (h, t) :: rs
      | _, _ => [(ch, [])]
      end
  end.

Definition runRecords (run : BuildEpub.Chapter * list BuildEpub.Chapter)
    : list BuildEpub.Chapter := run.1 :: run.2.

(** The nested list of one run: the group's name, linked to the file of the
    run's last record, over one entry per record. *)
Definition renderRun (run : BuildEpub.Chapter * list BuildEpub.Chapter) : str :=
  BuildEpub.navGroup (BuildEpub.filename (List.last run.2 run.1))
    (BuildEpub.chapter run.1)
    (concat (map BuildEpub.navEntry (runRecords run))).

(** What is still to come out of [createNav] when the group [g] is open with
    the entries [items], [prev] is the record just handled and [todo] are
    the records left. *)
Fixpoint finishWith (g items : str) (prev : BuildEpub.Chapter)
    (todo : list BuildEpub.Chapter) : str :=
  match todo with
  | [] => BuildEpub.navGroup (BuildEpub.filename prev) g items
  | ch :: rest =>
      if decide (BuildEpub.chapter ch = g)
      then finishWith g (items ++ BuildEpub.navEntry ch) ch rest
      else BuildEpub.navGroup (BuildEpub.filename prev) g items
             ++ finishWith (BuildEpub.chapter ch) (BuildEpub.navEntry ch) ch rest
  end.

(** Neighbouring runs belong to different groups. *)
Fixpoint boundaries (rs : list (BuildEpub.Chapter * list BuildEpub.Chapter))
    : Prop :=
  match rs with
  | r1 :: rs' =>
      match rs' with
      | r2 :: _ => BuildEpub.chapter r2.1 <> BuildEpub.chapter r1.1
      | [] => True
      end /\ boundaries rs'
  | [] => True
  end.

Arguments BuildEpub.navGroup : simpl never.
Arguments BuildEpub.navEntry : simpl never.

(** A record written out, for the examples. *)
Definition mkChapter (g t f c : string) : BuildEpub.Chapter :=
  {| BuildEpub.chapter := js g; BuildEpub.chTitle := js t;
     BuildEpub.filename := js f; BuildEpub.content := js c |}.

(** *** The runs of the scripts *)

(** The non-conformant command: [zip -r out *]. *)
Definition isPlain (c : Cmd) : bool :=
  match c with
  | ZipPlain _ _ => true
  | _ => false
  end.

(** Whatever the world, the stretch of script runs no [zip -r out *]. *)
Definition NoPlain {A} (m : Proc A) : Prop :=
  forall w, exists l,
    ran (m w).2 = ran w ++ l /\ Forall (fun c => isPlain c = false) l.

(** The world once the metadata patch has seen to its mimetype file. *)
Definition ensureMimetype (env : UpdateEpubMetadata.Env) (w : World) : World :=
  if existsSync (fs w) (UpdateEpubMetadata.mimetypePath env) then w
  else {| fs := <[UpdateEpubMetadata.mimetypePath env :=
                    File (js "application/epub+zip")]> (fs w);
          stderr := stderr w; ran := ran w |}.

(** The directories [createDirectories] sees to. *)
Definition buildDirs (env : BuildEpub.Env) : list str := [
  BuildEpub.outputDir env;
  join (BuildEpub.outputDir env) (js "META-INF");
  join (BuildEpub.outputDir env) (js "OEBPS");
  join (join (BuildEpub.outputDir env) (js "OEBPS")) (js "css");
  join (join (BuildEpub.outputDir env) (js "OEBPS")) (js "chapters")
].

Definition madeDirs (dirs : list str) (fs : gmap str Node) : gmap str Node :=
  foldl (fun fs d => if existsSync fs d then fs else <[d := Dir]> fs) fs dirs.


(** The world in which the build starts to write its files: the directories
    are there, and the site has been generated if [out/all.html] was
    missing.  [None] when the generation fails. *)
Definition siteGenerated (sh : Shell) (env : BuildEpub.Env) (w : World)
    : option World :=
  let fs1 := madeDirs (buildDirs env) (fs w) in
  if existsSync fs1 (BuildEpub.allHtmlPath env)
  then Some {| fs := fs1; stderr := stderr w; ran := ran w |}
  else
    let d := sh NpmTest fs1 in
    match failure d with
    | None => Some {| fs := after d; stderr := stderr w; ran := ran w ++ [NpmTest] |}
    | Some _ => None
    end.

(** *** Sample worlds *)


Definition worldWith (files : list (str * Node)) : World :=
  {| fs := list_to_map files; stderr := []; ran := [] |}.


(** The file system after the chapter loops have written their files. *)
Definition wroteChapters (dir : str) (files : list (str * str))
    (fs : gmap str Node) : gmap str Node :=
  foldl (fun fs (file : str * str) => <[join dir file.1 := File file.2]> fs) fs files.

(** The stretch of script ends in [process.exit] with status 1 only. *)
Definition ExitsWithOne {A} (m : Proc A) : Prop :=
  forall w c, (m w).1 = Exit c -> c = 1%Z.

Definition emptyWorld : World := worldWith [].

Definition samplePatchEnv : UpdateEpubMetadata.Env := {|
  UpdateEpubMetadata.today := js "2026-11-03";
  UpdateEpubMetadata.projectRoot := js "/home/jadi/linuxstorybook"
|}.




(** The character a pattern has to start with, when it starts with one. *)
Fixpoint firstChar (r : regex) : option N :=
  match r with
  | Chr p => Some p
  | Seq r1 _ => firstChar r1
  | Group _ r' => firstChar r'
  | _ => None
  end.

(** A character that only itself matches, with or without the [i] flag. *)
Definition Caseless (c : N) : Prop :=
  forall ic ch, canonicalize ic c = canonicalize ic ch -> ch = c.

(** The three texts at which the content of a section is cut. *)
Definition endMarkers : list str :=
  [js "<h2 >"; js "<h1 >"; js "<hr><b>فقط برای تفریح"].


(** Something that is not an archive where the input should be. *)
Definition brokenInputWorld : World :=
  worldWith [(UpdateEpubMetadata.inputFile samplePatchEnv, File (js "not a zip"))].

(** *** Literal patterns with the [i] flag *)

(** [startsWith] and [includes] up to the case of the ASCII letters, the
    way a pattern with the [i] flag compares. *)
Fixpoint startsWithCI (s p : str) {struct p} : bool :=
  match p, s with
  | [], _ => true
  | a :: p', b :: s' =>
      (canonicalize true a =? canonicalize true b) && startsWithCI s' p'
  | _ :: _, [] => false
  end.

Fixpoint includesCI (s p : str) : bool :=
  startsWithCI s p ||
  match s with
  | [] => false
  | _ :: s' => includesCI s' p
  end.

(** [t] and [p] differ, case apart, at a place both have. *)
Fixpoint clash (t p : str) : bool :=
  match t, p with
  | a :: t', b :: p' =>
      negb (canonicalize true a =? canonicalize true b) || clash t' p'
  | _, _ => false
  end.

(** Every non-empty end of [r] clashes with [p]. *)
Fixpoint clashes (r p : str) : bool :=
  match r with
  | [] => true
  | _ :: r' => clash r p && clashes r' p
  end.

(** [Rewritten p r s o]: [o] is [s] with the occurrences of [p], taken from
    the left and case apart, replaced by [r]. *)
Inductive Rewritten (p r : str) : str -> str -> Prop :=
| Rewritten_nil : Rewritten p r [] []
| Rewritten_gap ch s o :
    startsWithCI (ch :: s) p = false ->
    Rewritten p r s o -> Rewritten p r (ch :: s) (ch :: o)
| Rewritten_hit s o :
    startsWithCI s p = true ->
    Rewritten p r (drop (length p) s) o -> Rewritten p r s (r ++ o).




(** * Properties *)

(** ** The matcher *)



Lemma Reaches_refl x : Reaches x [] x.
Proof. split; simpl; [done | lia]. Qed.

Lemma Reaches_trans x w1 y w2 z :
  Reaches x w1 y -> Reaches y w2 z -> Reaches x (w1 ++ w2) z.
Proof.
  intros [Hr1 He1] [Hr2 He2]. split.
  - rewrite Hr1, Hr2. by rewrite app_assoc.
  - rewrite length_app. lia.
Qed.

Lemma matchChar_sound p x c z :
  matchChar p x c = Some z ->
  exists ch y, p ch = true /\ Reaches x [ch] y /\ c y = Some z.
Proof.
  unfold matchChar. destruct (rest x) as [|ch s'] eqn:Hx; [done|].
  destruct (p ch) eqn:Hp; [|done]. intros Hc.
  exists ch, (advance x s'). repeat split; simpl; auto; lia.
Qed.

(** Whatever the matcher accepts, it accepted by consuming a word of the
    pattern and handing the state after it to the continuation. *)
Lemma matcher_sound ic r : forall x c z,
  matcher ic r x c = Some z ->
  exists w y, Lang ic r w /\ Reaches x w y /\ c y = Some z.
Proof.
  induction r as [| p | | neg cs | | r1 IH1 r2 IH2 | r1 IH1 r2 IH2
                 | g r IH | i r IH]; intros x c z H; simpl in H.
  - exists [], x. split; [constructor|]. split; [apply Reaches_refl | done].
  - apply matchChar_sound in H as (ch & y & Hp & Hr & Hc).
    exists [ch], y. split; [|done]. constructor. by apply N.eqb_eq.
  - apply matchChar_sound in H as (ch & y & Hp & Hr & Hc).
    exists [ch], y. split; [|done]. constructor. by apply negb_true_iff.
  - apply matchChar_sound in H as (ch & y & Hp & Hr & Hc).
    exists [ch], y. split; [|done]. by constructor.
  - destruct (endIndex x =? 0)%nat; [|done].
    exists [], x. split; [constructor|]. split; [apply Reaches_refl | done].
  - apply IH1 in H as (w1 & y1 & HL1 & Hr1 & H).
    apply IH2 in H as (w2 & y2 & HL2 & Hr2 & H).
    exists (w1 ++ w2), y2. split; [by constructor|].
    split; [by eapply Reaches_trans | done].
  - destruct (matcher ic r1 x c) eqn:H1.
    + inversion H; subst. apply IH1 in H1 as (w & y & HL & Hr & Hc).
      exists w, y. split; [by apply L_AltL | done].
    + apply IH2 in H as (w & y & HL & Hr & Hc).
      exists w, y. split; [by apply L_AltR | done].
  - revert H. generalize (length (rest x)) as n. intros n. revert x.
    induction n as [|n IHn]; intros x H.
    + assert (c x = Some z) as Hc by (destruct g, (c x); done).
      exists [], x. split; [constructor|]. split; [apply Reaches_refl | done].
    + match type of H with
      | (if g then match ?a with _ => _ end else _) = _ =>
          assert (a = Some z \/ c x = Some z) as [Ha | Hc]
            by (revert H; generalize a; intros a'; destruct g, a', (c x);
                naive_solver)
      end.
      * apply IH in Ha as (w1 & y1 & HL1 & Hr1 & Ha).
        destruct (endIndex y1 =? endIndex x)%nat; [done|].
        apply IHn in Ha as (w2 & y2 & HL2 & Hr2 & Hc).
        exists (w1 ++ w2), y2. split; [by apply L_StarS|].
        split; [by eapply Reaches_trans | done].
      * exists [], x. split; [constructor|]. split; [apply Reaches_refl | done].
  - apply IH in H as (w & y & HL & Hr & Hc).
    eexists w, _. split; [by constructor|]. split; [|exact Hc].
    destruct Hr as [Hr He]. split; simpl; done.
Qed.

(** A match at [idx] covers a word of the pattern at the head of the
    input. *)
Lemma matchAt_sound re idx s mr :
  matchAt re idx s = Some mr ->
  index mr = idx /\ Lang (flagIgnoreCase re) (source re) (matched mr)
  /\ exists s', s = matched mr ++ s'.
Proof.
  unfold matchAt.
  destruct (matcher _ _ _ _) as [y|] eqn:H; [|done].
  intros [= <-]. simpl.
  apply matcher_sound in H as (w & y' & HL & [Hr He] & [= ->]).
  simpl in *. subst s. rewrite He.
  replace (idx + length w - idx)%nat with (length w) by lia.
  rewrite take_app_length. eauto.
Qed.

Lemma execFrom_index re s : forall idx mr,
  execFrom re idx s = Some mr -> (idx <= index mr)%nat.
Proof.
  induction s as [|ch s IH]; intros idx mr; simpl;
    destruct (matchAt re idx _) eqn:Hm.
  - intros [= <-]. apply matchAt_sound in Hm as [-> _]. lia.
  - done.
  - intros [= <-]. apply matchAt_sound in Hm as [-> _]. lia.
  - intros H. apply IH in H. lia.
Qed.

(** The match [exec] returns sits at its index in the input and is a word of
    the pattern. *)
Lemma execFrom_sound re s : forall idx mr,
  execFrom re idx s = Some mr ->
  Lang (flagIgnoreCase re) (source re) (matched mr)
  /\ exists s', drop (index mr - idx) s = matched mr ++ s'.
Proof.
  induction s as [|ch s IH]; intros idx mr; simpl;
    destruct (matchAt re idx _) eqn:Hm.
  - intros [= <-]. apply matchAt_sound in Hm as (-> & HL & s' & Hs).
    split; [done|]. exists s'. by rewrite Nat.sub_diag.
  - done.
  - intros [= <-]. apply matchAt_sound in Hm as (-> & HL & s' & Hs).
    split; [done|]. exists s'. by rewrite Nat.sub_diag.
  - intros H. pose proof (execFrom_index _ _ _ _ H) as Hi.
    apply IH in H as (HL & s' & Hs). split; [done|]. exists s'.
    replace (index mr - idx)%nat with (S (index mr - S idx)) by lia. done.
Qed.

Lemma exec_sound re s mr :
  exec re s = Some mr ->
  Lang (flagIgnoreCase re) (source re) (matched mr)
  /\ exists s', s = take (index mr) s ++ matched mr ++ s'.
Proof.
  intros H. apply execFrom_sound in H as (HL & s' & Hs). split; [done|].
  exists s'. rewrite Nat.sub_0_r in Hs. by rewrite <- Hs, take_drop.
Qed.

(** ** Substrings *)

Lemma startsWith_spec s p : startsWith s p = true <-> exists b, s = p ++ b.
Proof.
  revert s. induction p as [|a p IH]; intros s; simpl.
  - split; [intros _; by exists s | done].
  - destruct s as [|b s].
    + split; [done | intros [? ?]; done].
    + rewrite andb_true_iff, N.eqb_eq, IH. split.
      * intros [-> [t ->]]. by exists t.
      * intros [t [= -> ->]]. eauto.
Qed.

Lemma startsWith_cons s a p :
  startsWith s (a :: p) =
  match s with
  | [] => false
  | ch :: s' => (a =? ch) && startsWith s' p
  end.
Proof. done. Qed.

Lemma startsWith_app p b : startsWith (p ++ b) p = true.
Proof. apply startsWith_spec. by exists b. Qed.

Lemma startsWith_take s p : startsWith s p = true -> take (length p) s = p.
Proof. intros [b ->]%startsWith_spec. by rewrite take_app_length. Qed.

Lemma includes_spec s p : includes s p = true <-> exists a b, s = a ++ p ++ b.
Proof.
  induction s as [|ch s IH]; simpl; rewrite orb_true_iff, startsWith_spec.
  - split.
    + intros [[b Hb] | ?]; [|done]. by exists [], b.
    + intros ([|] & b & Hb); [|done]. left. by exists b.
  - rewrite IH. split.
    + intros [[b Hb] | (a & b & ->)]; [by exists [], b|].
      by exists (ch :: a), b.
    + intros ([|x a] & b & Hb); [left; by exists b|].
      right. injection Hb as -> ->. by exists a, b.
Qed.

Lemma includes_app s p a b : includes s p = true -> includes (a ++ s ++ b) p = true.
Proof.
  rewrite !includes_spec. intros (a' & b' & ->).
  exists (a ++ a'), (b' ++ b). by rewrite <- !app_assoc.
Qed.

Lemma includes_app_l a b p : includes a p = true -> includes (a ++ b) p = true.
Proof.
  intros H. apply (includes_app _ _ [] b) in H. exact H.
Qed.

Lemma includes_app_r a b p : includes b p = true -> includes (a ++ b) p = true.
Proof.
  intros H. apply (includes_app _ _ a []) in H. by rewrite app_nil_r in H.
Qed.

Lemma includes_here a p b : includes (a ++ p ++ b) p = true.
Proof. apply includes_spec. by exists a, b. Qed.

(** An occurrence of [p] in [pre ++ m ++ post] that shares no character
    with [m] lies in [pre] or in [post]. *)
Lemma includes_around pre m post p :
  m <> [] -> p <> [] -> (forall ch, ch ∈ p -> ch ∉ m) ->
  includes (pre ++ m ++ post) p = true ->
  includes pre p = true \/ includes post p = true.
Proof.
  intros Hm Hp Hdis. rewrite !includes_spec. intros (a & b & Heq).
  destruct (decide (length a + length p <= length pre)%nat) as [Hle | Hgt].
  { left. rewrite (app_assoc a p b) in Heq.
    apply app_eq_app in Heq as [l [[-> _] | [Hl _]]].
    - exists a, l. by rewrite <- app_assoc.
    - pose proof (f_equal length Hl) as Hlen. rewrite !length_app in Hlen.
      destruct l; [|simpl in Hlen; lia]. rewrite app_nil_r in Hl.
      exists a, []. by rewrite app_nil_r. }
  destruct (decide (length pre + length m <= length a)%nat) as [Hle' | Hgt'].
  { right. rewrite (app_assoc pre m post) in Heq. symmetry in Heq.
    apply app_eq_app in Heq as [l [[-> Hpost] | [Hl Hpost]]].
    - exists l, b. done.
    - pose proof (f_equal length Hl) as Hlen. rewrite !length_app in Hlen.
      destruct l; [|simpl in Hlen; lia]. exists [], b. done. }
  exfalso.
  set (j := Nat.max (length a) (length pre)).
  assert (length m > 0 /\ length p > 0)%nat as [? ?]
    by (destruct m, p; simpl; split; try done; lia).
  assert (exists ch, p !! (j - length a)%nat = Some ch) as [ch Hch]
    by (apply lookup_lt_is_Some; lia).
  assert (m !! (j - length pre)%nat = Some ch) as Hch'.
  { assert ((pre ++ m ++ post) !! j = Some ch) as Hj.
    { rewrite Heq. rewrite lookup_app_r by lia.
      rewrite lookup_app_l by lia. done. }
    rewrite lookup_app_r in Hj by lia.
    rewrite lookup_app_l in Hj by lia. done. }
  apply (Hdis ch); eapply list_elem_of_lookup_2; eauto.
Qed.


Lemma indexOfFrom_None idx s p : indexOfFrom idx s p = None <-> includes s p = false.
Proof.
  revert idx. induction s as [|ch s IH]; intros idx; simpl;
    destruct (startsWith _ p); simpl; try done; apply IH.
Qed.

(** The index found is that of the first occurrence. *)
Lemma indexOfFrom_Some idx s p i :
  indexOfFrom idx s p = Some i ->
  exists pre post, s = pre ++ p ++ post /\ i = (idx + length pre)%nat
    /\ forall a b, s = a ++ p ++ b -> (length pre <= length a)%nat.
Proof.
  revert idx. induction s as [|ch s IH]; intros idx; simpl;
    destruct (startsWith _ p) eqn:Hs.
  - intros [= <-]. apply startsWith_spec in Hs as [b Hb].
    exists [], b. repeat split; simpl; [done | lia | intros; lia].
  - done.
  - intros [= <-]. apply startsWith_spec in Hs as [b Hb].
    exists [], b. repeat split; simpl; [done | lia | intros; lia].
  - intros (pre & post & -> & -> & Hfirst)%IH.
    exists (ch :: pre), post. repeat split; simpl; [lia|].
    intros [|x a] b Hab.
    + simpl in Hab. rewrite Hab, startsWith_app in Hs. done.
    + injection Hab as -> Hab. apply Hfirst in Hab. simpl. lia.
Qed.

(** ** Literal patterns *)

Lemma matcher_Lit p : forall x c,
  matcher false (Lit p) x c =
  if startsWith (rest x) p then
    c {| endIndex := (endIndex x + length p)%nat;
         rest := drop (length p) (rest x); captures := captures x |}
  else None.
Proof.
  induction p as [|a p IH]; intros [e s caps] c.
  - simpl. by rewrite Nat.add_0_r.
  - assert (forall k : MatchState -> option MatchState,
              matchChar (fun ch => canonicalize false a =? canonicalize false ch)
                {| endIndex := e; rest := s; captures := caps |} k
              = match s with
                | ch :: s' => if a =? ch
                              then k {| endIndex := S e; rest := s'; captures := caps |}
                              else None
                | [] => None
                end) as Hchr by (intros k; by destruct s).
    destruct p as [|b p'].
    + simpl. rewrite Hchr. destruct s as [|ch s']; [done|]. simpl.
      rewrite andb_true_r. destruct (a =? ch); [|done].
      by rewrite Nat.add_1_r.
    + change (Lit (a :: b :: p')) with (Seq (Chr a) (Lit (b :: p'))).
      cbn [matcher]. rewrite Hchr. destruct s as [|ch s']; [done|].
      cbn [rest]. rewrite (startsWith_cons (ch :: s')).
      destruct (a =? ch); [|done]. rewrite IH.
      cbn [rest endIndex captures andb].
      destruct (startsWith s' (b :: p')); [|done].
      do 2 f_equal. simpl. lia.
Qed.

Lemma matchAt_Lit p g idx s :
  matchAt (litRe p g) idx s =
  if startsWith s p then Some {| index := idx; matched := p; groups := [] |}
  else None.
Proof.
  unfold matchAt, litRe, mkRegExp. cbn [source flagIgnoreCase nCaptures].
  rewrite matcher_Lit. cbn [rest endIndex captures].
  destruct (startsWith s p) eqn:Hs; [|done]. f_equal. f_equal.
  cbn [endIndex]. replace (idx + length p - idx)%nat with (length p) by lia.
  by apply startsWith_take.
Qed.

(** [exec] of a literal pattern is [indexOf]. *)
Lemma execFrom_Lit p g s : forall idx,
  execFrom (litRe p g) idx s =
  (fun i => {| index := i; matched := p; groups := [] |}) <$> indexOfFrom idx s p.
Proof.
  induction s as [|ch s IH]; intros idx; simpl; rewrite matchAt_Lit;
    destruct (startsWith _ p); try done; apply IH.
Qed.

(** ** Replacement templates *)

Lemma getSubstitution_plain_app whole mr a b :
  plain a = true ->
  getSubstitution whole mr (a ++ b) = a ++ getSubstitution whole mr b.
Proof.
  induction a as [|c a IH]; [done|]. simpl.
  intros [Hc Ha]%andb_true_iff. rewrite Hc. f_equal. auto.
Qed.

Lemma getSubstitution_plain whole mr t :
  plain t = true -> getSubstitution whole mr t = t.
Proof.
  intros H. rewrite <- (app_nil_r t) at 1.
  rewrite getSubstitution_plain_app by done. simpl. apply app_nil_r.
Qed.

(** Replacing the first occurrence of a literal: nothing changes when there
    is none, and otherwise the text before and after the first occurrence is
    kept. *)
Lemma replaceFirst_Lit p tpl s :
  (includes s p = false /\ replaceFirst (litRe p false) tpl s = s)
  \/ exists pre post mr,
       s = pre ++ p ++ post
       /\ (forall a b, s = a ++ p ++ b -> (length pre <= length a)%nat)
       /\ replaceFirst (litRe p false) tpl s
          = pre ++ getSubstitution s mr tpl ++ post.
Proof.
  unfold replaceFirst, exec. rewrite execFrom_Lit.
  destruct (indexOfFrom 0 s p) as [i|] eqn:Hi; simpl.
  - right. apply indexOfFrom_Some in Hi as (pre & post & Hs & -> & Hfirst).
    exists pre, post. eexists. split; [done|]. split; [done|].
    simpl. rewrite Hs at 1. rewrite take_app_length. f_equal. f_equal.
    rewrite Hs at 1. rewrite app_assoc, <- length_app.
    by rewrite drop_app_length.
  - left. by apply indexOfFrom_None in Hi.
Qed.

(** ** Global replacement *)

(** The pieces of a global scan, put back together, are the input. *)
Lemma pieces_src re s : forall idx skip,
  (skip <= length s)%nat ->
  concat (map pieceSrc (pieces re idx skip s)) = drop skip s.
Proof.
  induction s as [|ch s IH]; intros idx skip Hle.
  - destruct skip; [|simpl in Hle; lia]. simpl.
    destruct (matchAt re idx []) as [mr|] eqn:Hm; [|done].
    apply matchAt_sound in Hm as (_ & _ & s' & Hs). simpl.
    destruct (matched mr); done.
  - destruct skip as [|k]; simpl in *.
    + destruct (matchAt re idx (ch :: s)) as [mr|] eqn:Hm.
      * apply matchAt_sound in Hm as (_ & _ & s' & Hs).
        destruct (matched mr) as [|c w] eqn:Hw; simpl; rewrite Hw.
        { simpl. f_equal. rewrite IH by lia. done. }
        injection Hs as <- ->. rewrite IH by (rewrite length_app; lia).
        by rewrite drop_app_length.
      * simpl. f_equal. rewrite IH by lia. done.
    + apply IH. lia.
Qed.

Lemma execFrom_None_hits re s : forall idx,
  execFrom re idx s = None <-> hits (pieces re idx 0 s) = [].
Proof.
  induction s as [|ch s IH]; intros idx; simpl;
    destruct (matchAt re idx _) as [mr|]; simpl; try done; apply IH.
Qed.

(** [test] succeeds exactly when the global scan finds a match. *)
Lemma test_matchesOf re s : test re s = true <-> matchesOf re s <> [].
Proof.
  unfold test, matchesOf, exec.
  destruct (execFrom re 0 s) eqn:He.
  - split; [|done]. intros _ Hh. apply execFrom_None_hits in Hh. congruence.
  - apply execFrom_None_hits in He. split; [done|]. by rewrite He.
Qed.

(** Every match of a global scan is a word of the pattern. *)
Lemma pieces_Lang re s : forall idx skip,
  Forall (fun mr => Lang (flagIgnoreCase re) (source re) (matched mr))
    (hits (pieces re idx skip s)).
Proof.
  induction s as [|ch s IH]; intros idx skip.
  - destruct skip; simpl; [|constructor].
    destruct (matchAt re idx []) as [mr|] eqn:Hm; [|constructor].
    apply matchAt_sound in Hm as (_ & HL & _). simpl. by repeat constructor.
  - destruct skip as [|k]; simpl; [|apply IH].
    destruct (matchAt re idx (ch :: s)) as [mr|] eqn:Hm; simpl; [|apply IH].
    apply matchAt_sound in Hm as (_ & HL & _). constructor; [done|].
    destruct (length (matched mr)); simpl; apply IH.
Qed.

(** ** What the words of the scripts' patterns look like *)

Lemma Lang_Eps_inv ic w : Lang ic Eps w -> w = [].
Proof. by inversion 1. Qed.

Lemma Lang_Seq_inv ic r1 r2 w :
  Lang ic (Seq r1 r2) w -> exists w1 w2, w = w1 ++ w2 /\ Lang ic r1 w1 /\ Lang ic r2 w2.
Proof. inversion 1; subst. eauto. Qed.

Lemma Lang_Lit ic p : forall w,
  Lang ic (Lit p) w -> map (canonicalize ic) w = map (canonicalize ic) p.
Proof.
  induction p as [|a p IH]; intros w H.
  - apply Lang_Eps_inv in H as ->. done.
  - destruct p as [|b p'].
    + inversion H; subst. simpl. congruence.
    + change (Lit (a :: b :: p')) with (Seq (Chr a) (Lit (b :: p'))) in H.
      apply Lang_Seq_inv in H as (w1 & w2 & -> & H1 & H2).
      inversion H1; subst. apply IH in H2.
      cbn [map app]. rewrite H2. simpl. congruence.
Qed.

Lemma Lang_Star_Forall ic g r (P : N -> Prop) w :
  (forall w', Lang ic r w' -> Forall P w') ->
  Lang ic (Star g r) w -> Forall P w.
Proof.
  intros Hr H. remember (Star g r) as sr eqn:Hsr.
  induction H; try discriminate; [constructor|].
  injection Hsr as -> ->. apply Forall_app. split; auto.
Qed.

Lemma Lang_notChr ic w :
  Lang ic (notChr ">") w -> Forall (fun ch => ch <> 62) w.
Proof.
  change (notChr ">") with (Class true [CChar 62]).
  inversion 1 as [| | |neg cs ch Hc| | | | | | |]; subst.
  repeat constructor. intros ->. by destruct ic.
Qed.

Lemma Lang_Dot ic w :
  Lang ic Dot w -> Forall (fun ch => isLineTerminator ch = false) w.
Proof. inversion 1; subst. by repeat constructor. Qed.

(** A match of the pattern [updateMetadataTag] builds is a complete
    occurrence of the tag. *)
Lemma tagRegExp_CompleteTag fullTag m :
  Lang true (source (UpdateEpubMetadata.tagRegExp fullTag)) m ->
  CompleteTag fullTag m.
Proof.
  unfold UpdateEpubMetadata.tagRegExp, mkRegExp, Cat. cbn [source foldr].
  intros H.
  apply Lang_Seq_inv in H as (o & w1 & -> & Ho & H).
  apply Lang_Seq_inv in H as (attrs & w2 & -> & Ha & H).
  apply Lang_Seq_inv in H as (gt & w3 & -> & Hgt & H).
  apply Lang_Seq_inv in H as (body & w4 & -> & Hb & H).
  apply Lang_Seq_inv in H as (cl & w5 & -> & Hc & H).
  apply Lang_Eps_inv in H as ->. rewrite app_nil_r.
  exists o, attrs, body, cl. repeat split.
  - inversion Hgt; subst. f_equal. f_equal. f_equal.
    match goal with Hq : canonicalize _ _ = canonicalize _ _ |- _ =>
      revert Hq end.
    unfold canonicalize, ascii_lower. simpl.
    destruct (97 <=? ch) eqn:H1, (ch <=? 122) eqn:H2; simpl; try (intros <-; done).
    apply N.leb_le in H1, H2. lia.
  - by apply Lang_Lit in Ho.
  - eapply Lang_Star_Forall; [|exact Ha]. apply Lang_notChr.
  - eapply Lang_Star_Forall; [|exact Hb]. apply Lang_Dot.
  - by apply Lang_Lit in Hc.
Qed.

(** ** The metadata substitution engine *)

Import UpdateEpubMetadata.

(** [updateFields] is the seven calls, field after field. *)
Lemma updateFields_fields opfContent :
  updateFields opfContent =
  foldl (fun c f => updateField f c) opfContent
    [Title; Creator; Language; Publisher; Rights; Description; Subject].
Proof.
  cbv beta iota zeta delta [updateFields foldl updateField fieldTag fieldValue].
  reflexivity.
Qed.

Lemma fieldNewTag_plain f : plain (fieldNewTag f) = true.
Proof. destruct f; vm_compute; reflexivity. Qed.

Lemma beforeClose_fieldNewTag_plain f : plain (beforeClose (fieldNewTag f)) = true.
Proof. destruct f; vm_compute; reflexivity. Qed.

(** C1, as the specification words it, fails: with two title tags in the
    document both are rewritten, so that the result holds the title twice
    and the second occurrence has not been left alone. *)
Lemma updateFields_two_titles :
  let doc := js "<metadata><dc:title>a</dc:title><dc:title>b</dc:title></metadata>" in
  occurrences Title (updateFields doc) = [fieldNewTag Title; fieldNewTag Title]
  /\ ~ ExactlyOnce Title (updateFields doc)
  /\ includes (updateFields doc) (js "<dc:title>b</dc:title>") = false.
Proof.
  assert (occurrences Title
            (updateFields
               (js "<metadata><dc:title>a</dc:title><dc:title>b</dc:title></metadata>"))
          = [fieldNewTag Title; fieldNewTag Title]) as H by (vm_compute; reflexivity).
  cbv zeta. split; [exact H|]. split.
  - unfold ExactlyOnce. rewrite H. discriminate.
  - vm_compute. reflexivity.
Qed.

(** C1, amended: one call of [updateMetadataTag] for any of the seven fields,
    on any text.  The global scan cuts the text into the matches of the tag
    pattern, each a complete occurrence of the tag, and the characters
    between them.  When there is a match, every match, not the first alone,
    gives way to the freshly built tag and nothing else changes, so that a
    text with k occurrences gets the new tag k times.  When there is none,
    the new tag is put on a line of its own before the first [</metadata>],
    and a text without [</metadata>] is left as it is. *)
Theorem updateMetadataTag_every_occurrence (f : Field) (content : str) :
  let ps := pieces (fieldRegExp f) 0 0 content in
  content = concat (map pieceSrc ps)
  /\ Forall (CompleteTag (fieldFullTag f)) (occurrences f content)
  /\ (occurrences f content <> [] ->
      updateField f content = concat (map (pieceNew (fieldNewTag f)) ps))
  /\ (occurrences f content = [] ->
      (includes content closeMetadata = false /\ updateField f content = content)
      \/ exists pre post,
           content = pre ++ closeMetadata ++ post
           /\ (forall a b, content = a ++ closeMetadata ++ b ->
                 (length pre <= length a)%nat)
           /\ updateField f content
              = pre ++ beforeClose (fieldNewTag f) ++ post).
Proof.
  cbv zeta. split; [|split; [|split]].
  - by rewrite pieces_src by lia.
  - unfold occurrences, matchesOf. apply Forall_map.
    eapply Forall_impl; [apply pieces_Lang|].
    intros mr Hmr. by apply tagRegExp_CompleteTag.
  - intros Hocc.
    assert (test (fieldRegExp f) content = true) as Ht.
    { apply test_matchesOf. intros Hm. apply Hocc. unfold occurrences.
      by rewrite Hm. }
    unfold updateField, updateMetadataTag.
    change (tagRegExp (fullTagOf (js "dc") (fieldTag f))) with (fieldRegExp f).
    rewrite Ht. unfold replace.
    change (flagGlobal (fieldRegExp f)) with true. cbv iota.
    unfold replaceAll. f_equal. apply map_ext. intros [c | mr]; [reflexivity|].
    cbn [pieceOut pieceNew].
    apply (getSubstitution_plain content mr (fieldNewTag f)), fieldNewTag_plain.
  - intros Hocc.
    assert (test (fieldRegExp f) content = false) as Ht.
    { apply not_true_is_false. intros Ht%test_matchesOf. apply Ht.
      unfold occurrences in Hocc. by apply map_eq_nil in Hocc. }
    unfold updateField, updateMetadataTag.
    change (tagRegExp (fullTagOf (js "dc") (fieldTag f))) with (fieldRegExp f).
    rewrite Ht. unfold replace.
    change (flagGlobal reCloseMetadata) with false. cbv iota.
    change reCloseMetadata with (litRe closeMetadata false).
    destruct (replaceFirst_Lit closeMetadata
                (beforeClose (newTagOf (fullTagOf (js "dc") (fieldTag f)) []
                                (fieldValue f))) content)
      as [[Hn Hr] | (pre & post & mr & Hc & Hfirst & Hr)].
    + left. done.
    + right. exists pre, post. split; [done|]. split; [done|].
      rewrite Hr. f_equal. f_equal.
      apply getSubstitution_plain, beforeClose_fieldNewTag_plain.
Qed.

(** ** The contributor and date insertions *)

Lemma translatorTemplate_plain :
  plain (beforeClose (js "<dc:contributor>ترجمه: " ++ translator metadata
                        ++ js "</dc:contributor>")) = true.
Proof. vm_compute. reflexivity. Qed.

Lemma translatorTemplate_label :
  includes (beforeClose (js "<dc:contributor>ترجمه: " ++ translator metadata
                           ++ js "</dc:contributor>")) translatorLabel = true.
Proof. vm_compute. reflexivity. Qed.

(** After [addTranslator] the label is there, or there is no [</metadata>]
    to put anything before. *)
Lemma addTranslator_settled c :
  includes (addTranslator c) translatorLabel = true
  \/ includes (addTranslator c) closeMetadata = false.
Proof.
  unfold addTranslator. destruct (includes c translatorLabel) eqn:Hl; [by left|].
  cbn [negb]. unfold replace. change (flagGlobal reCloseMetadata) with false.
  cbv iota. change reCloseMetadata with (litRe closeMetadata false).
  match goal with |- context [replaceFirst _ ?t c] =>
    destruct (replaceFirst_Lit closeMetadata t c)
      as [[Hn ->] | (pre & post & mr & Hc & _ & ->)]
  end.
  - by right.
  - left. rewrite getSubstitution_plain by apply translatorTemplate_plain.
    apply includes_app, translatorTemplate_label.
Qed.

(** After [addDate] the start of a date tag is there, or there is no
    [</metadata>]. *)
Lemma addDate_settled today c :
  includes (addDate today c) dateTagStart = true
  \/ includes (addDate today c) closeMetadata = false.
Proof.
  unfold addDate. destruct (includes c dateTagStart) eqn:Hl; [by left|].
  cbn [negb]. unfold replace. change (flagGlobal reCloseMetadata) with false.
  cbv iota. change reCloseMetadata with (litRe closeMetadata false).
  match goal with |- context [replaceFirst _ ?t c] =>
    destruct (replaceFirst_Lit closeMetadata t c)
      as [[Hn ->] | (pre & post & mr & Hc & _ & ->)]
  end.
  - by right.
  - left. unfold beforeClose.
    change (js "<dc:date>") with dateTagStart.
    rewrite (getSubstitution_plain_app _ _ (js "    ")) by reflexivity.
    rewrite <- (app_assoc dateTagStart).
    rewrite (getSubstitution_plain_app _ _ dateTagStart) by reflexivity.
    rewrite <- !app_assoc. rewrite (app_assoc pre).
    apply includes_here.
Qed.

(** Putting the date in does not take the translator label away. *)
Lemma addDate_keeps_label today c :
  includes c translatorLabel = true ->
  includes (addDate today c) translatorLabel = true.
Proof.
  intros Hl. unfold addDate. destruct (includes c dateTagStart); [done|].
  cbn [negb]. unfold replace. change (flagGlobal reCloseMetadata) with false.
  cbv iota. change reCloseMetadata with (litRe closeMetadata false).
  match goal with |- context [replaceFirst _ ?t c] =>
    destruct (replaceFirst_Lit closeMetadata t c)
      as [[Hn ->] | (pre & post & mr & Hc & _ & ->)]
  end; [done|].
  rewrite Hc in Hl. apply includes_around in Hl as [Hpre | Hpost].
  - by apply includes_app_l.
  - by do 2 apply includes_app_r.
  - discriminate.
  - discriminate.
  - intros ch Hch Hin. revert Hch Hin. unfold translatorLabel, closeMetadata.
    rewrite !list_elem_of_In. vm_compute. intuition (subst; discriminate).
Qed.

Lemma addTranslator_stable c :
  includes c translatorLabel = true \/ includes c closeMetadata = false ->
  addTranslator c = c.
Proof.
  unfold addTranslator. intros [-> | Hn]; [done|].
  destruct (includes c translatorLabel); [done|]. cbn [negb].
  unfold replace. change (flagGlobal reCloseMetadata) with false. cbv iota.
  change reCloseMetadata with (litRe closeMetadata false).
  match goal with |- context [replaceFirst _ ?t c] =>
    destruct (replaceFirst_Lit closeMetadata t c)
      as [[_ ->] | (pre & post & mr & Hc & _ & _)]
  end; [done|].
  rewrite Hc, includes_here in Hn. done.
Qed.

Lemma addDate_stable today c :
  includes c dateTagStart = true \/ includes c closeMetadata = false ->
  addDate today c = c.
Proof.
  unfold addDate. intros [-> | Hn]; [done|].
  destruct (includes c dateTagStart); [done|]. cbn [negb].
  unfold replace. change (flagGlobal reCloseMetadata) with false. cbv iota.
  change reCloseMetadata with (litRe closeMetadata false).
  match goal with |- context [replaceFirst _ ?t c] =>
    destruct (replaceFirst_Lit closeMetadata t c)
      as [[_ ->] | (pre & post & mr & Hc & _ & _)]
  end; [done|].
  rewrite Hc, includes_here in Hn. done.
Qed.

(** C7: the contributor and date insertions, run a second time on their own
    result (on whatever day), change nothing, on any text: a translator label
    or a date-tag start that is there after the first run keeps the second
    run from inserting again. *)
Theorem addTranslatorAndDate_idempotent (today today' : str) (opfContent : str) :
  let once := addTranslatorAndDate today opfContent in
  addTranslatorAndDate today' once = once
  /\ (includes once translatorLabel = true -> addTranslator once = once)
  /\ (includes once dateTagStart = true -> addDate today' once = once).
Proof.
  cbv zeta. split; [|split].
  - unfold addTranslatorAndDate.
    set (c1 := addTranslator opfContent). set (c2 := addDate today c1).
    assert (addTranslator c2 = c2) as ->.
    { apply addTranslator_stable.
      destruct (addTranslator_settled opfContent) as [Hl | Hn].
      - left. by apply addDate_keeps_label.
      - right. unfold c2. rewrite addDate_stable; auto. }
    apply addDate_stable, addDate_settled.
  - intros H. apply addTranslator_stable. by left.
  - intros H. apply addDate_stable. by left.
Qed.

(** ** trim *)

Lemma trimStart_nil s : trimStart s = [] <-> forallb isSpace s = true.
Proof.
  induction s as [|c s IH]; simpl; [done|].
  destruct (isSpace c); simpl; [apply IH | done].
Qed.

Lemma trimStart_head s c t : trimStart s = c :: t -> isSpace c = false.
Proof.
  induction s as [|a s IH]; simpl; [done|].
  destruct (isSpace a) eqn:Ha; [apply IH|]. by intros [= <- _].
Qed.

Lemma forallb_rev (p : N -> bool) s : forallb p (rev s) = forallb p s.
Proof.
  induction s as [|c s IH]; simpl; [done|].
  rewrite forallb_app, IH. simpl. rewrite andb_true_r. apply andb_comm.
Qed.

(** [trim] leaves nothing exactly of the strings that are empty or all
    whitespace. *)
Lemma trim_nil s : trim s = [] <-> forallb isSpace s = true.
Proof.
  unfold trim, trimEnd. split.
  - intros H. apply (f_equal (@rev N)) in H. rewrite rev_involutive in H.
    simpl in H. apply trimStart_nil in H. rewrite forallb_rev in H.
    destruct (trimStart s) as [|c t] eqn:Hs; [by apply trimStart_nil|].
    apply trimStart_head in Hs. simpl in H. rewrite Hs in H. done.
  - intros H. apply trimStart_nil in H. by rewrite H.
Qed.

(** ** The chapter loops *)

Import BuildEpub.

Lemma foldl_preserves {A B} (P : A -> Prop) (f : A -> B -> A) l : forall a,
  (forall a b, P a -> P (f a b)) -> P a -> P (foldl f a l).
Proof. induction l as [|b l IH]; simpl; auto. Qed.

Lemma sectionStep_inv chapterName st h2Part :
  LoopInv st -> LoopInv (sectionStep chapterName st h2Part).
Proof.
  intros [Hi Hn Hc Hw]. unfold sectionStep.
  destruct (sectionOf h2Part) as [[title content]|]; [|by split].
  destruct (trim content) as [|c t] eqn:Ht; [by split|].
  split; cbn [chapters chapterIndex written].
  - rewrite length_app. simpl. lia.
  - rewrite map_app, Hn, length_app. cbn [length map].
    rewrite Nat.add_1_r, seq_S, map_app. simpl. by rewrite Hi.
  - apply Forall_app. split; [done|]. by repeat constructor.
  - rewrite map_app, Hw. cbn [map]. unfold chapterXhtml, headed, htmlToXHTML.
    cbn [chapter chTitle BuildEpub.content filename]. reflexivity.
Qed.

Lemma chapterStep_inv st part : LoopInv st -> LoopInv (chapterStep st part).
Proof.
  intros H. unfold chapterStep.
  destruct (exec (reHeading "h1") part); [|done].
  apply foldl_preserves; [|done]. intros. by apply sectionStep_inv.
Qed.

Lemma processBody_inv bodyContent : LoopInv (processBody bodyContent).
Proof.
  unfold processBody. apply foldl_preserves.
  - intros. by apply chapterStep_inv.
  - by split.
Qed.

(** C3: the body of the scenario gives the three records of the
    specification, in the order of the document. *)
Theorem processBody_scenario :
  chapters
    (processBody
       (js "<h1 >A</h1><h2 >One</h2>text1<h2 >Two</h2>text2<h1 >B</h1><h2 >Three</h2>text3"))
  = [ {| chapter := js "A"; chTitle := js "One";
         filename := js "chapter1.xhtml"; content := js "text1" |};
      {| chapter := js "A"; chTitle := js "Two";
         filename := js "chapter2.xhtml"; content := js "text2" |};
      {| chapter := js "B"; chTitle := js "Three";
         filename := js "chapter3.xhtml"; content := js "text3" |} ].
Proof. vm_compute. reflexivity. Qed.

(** A section that is all whitespace between two that are not: it gives no
    record, and the files of the two are numbered 1 and 2. *)
Example processBody_skips_blank_section :
  map (fun r => (chTitle r, filename r))
    (chapters
       (processBody (js "<h1 >A</h1><h2 >One</h2>text1<h2 >Two</h2>   <h2 >Three</h2>text3")))
  = [(js "One", js "chapter1.xhtml"); (js "Three", js "chapter2.xhtml")].
Proof. vm_compute. reflexivity. Qed.

(** C4: a section whose content, cut where the section ends, is empty or all
    whitespace leaves the records and the counter as they were; and for
    every body the files of the records are [chapter1.xhtml],
    [chapter2.xhtml], ... up to the number of records, each record having
    content. *)
Theorem chapters_numbered_without_gaps :
  (forall chapterName st h2Part title content,
     sectionOf h2Part = Some (title, content) ->
     forallb isSpace content = true ->
     sectionStep chapterName st h2Part = st)
  /\ forall bodyContent,
       let st := processBody bodyContent in
       chapterIndex st = length (chapters st)
       /\ map filename (chapters st) = map chapterFile (seq 1 (length (chapters st)))
       /\ Forall (fun r => content r <> []) (chapters st).
Proof.
  split.
  - intros chapterName st h2Part title content Hs Hblank.
    unfold sectionStep. rewrite Hs.
    apply trim_nil in Hblank. by rewrite Hblank.
  - intros bodyContent. cbv zeta.
    destruct (processBody_inv bodyContent) as [Hi Hn Hc _]. done.
Qed.

(** ** The package document *)

Lemma opfLoop_from (l : list Chapter) : forall (g : nat -> nat) m s,
  foldl opfStep (m, s) (imap (fun i c => (g i, c)) l)
  = (m ++ concat (imap (fun i c => manifestItem (g i) c) l),
     s ++ concat (imap (fun i _ => spineItem (g i)) l)).
Proof.
  induction l as [|c l IH]; intros g m s.
  - simpl. by rewrite !app_nil_r.
  - cbn [imap foldl]. unfold opfStep at 2. cbn [fst snd].
    rewrite (IH (g ∘ S)). cbn [concat]. by rewrite <- !app_assoc.
Qed.

Lemma opfLoop_lines chs :
  opfLoop chs = (cssItem ++ concat (imap manifestItem chs),
                 concat (imap (fun i _ => spineItem i) chs)).
Proof. unfold opfLoop. apply (opfLoop_from chs id). Qed.

Lemma tpl_href : tpl "~ href=~chapters/" = tpl "~ href=~" ++ js "chapters/".
Proof. vm_compute. reflexivity. Qed.

(** C6: the package document of any sequence of records.  Its manifest is
    the item of the navigation document, the item of the stylesheet and one
    item per record, the i-th naming the file of the i-th record; its spine,
    opened with the right-to-left page progression direction, is the
    navigation document marked non-linear and then one reference per record,
    in the order of the records. *)
Theorem opfText_manifest_and_spine (env : Env) (chs : list Chapter) :
  opfText env chs
  = opfHead (metadata env) (opfInstant env)
      ++ manifestOpen ++ concat (manifestLines chs) ++ manifestClose
      ++ spineOpen ++ concat (spineLines chs) ++ spineClose
  /\ length (manifestLines chs) = (length chs + 2)%nat
  /\ length (spineLines chs) = (length chs + 1)%nat
  /\ (forall i ch, chs !! i = Some ch ->
        manifestLines chs !! (i + 2)%nat = Some (manifestItem i ch)
        /\ includes (manifestItem i ch) (js "chapters/" ++ filename ch) = true
        /\ spineLines chs !! (i + 1)%nat = Some (spineItem i)
        /\ includes (spineItem i) (chapterId i) = true)
  /\ includes navItemref (tpl "linear=~no~") = true
  /\ includes spineOpen (tpl "page-progression-direction=~rtl~") = true.
Proof.
  split; [|split; [|split; [|split; [|split]]]].
  - unfold opfText. rewrite opfLoop_lines. unfold manifestLines, spineLines.
    cbn [concat]. rewrite <- !app_assoc. reflexivity.
  - unfold manifestLines. cbn [length]. rewrite length_imap. lia.
  - unfold spineLines. cbn [length]. rewrite length_imap. lia.
  - intros i ch Hi. unfold manifestLines, spineLines.
    rewrite !Nat.add_succ_r, Nat.add_0_r.
    rewrite !lookup_cons_ne_0 by lia. cbn [Nat.pred].
    rewrite !list_lookup_imap, Hi. cbn [fmap option_fmap option_map].
    repeat split.
    + unfold manifestItem. apply includes_spec.
      exists (tpl "    <item id=~" ++ chapterId i ++ tpl "~ href=~"),
        (tpl "~ media-type=~application/xhtml+xml~/>
").
      rewrite tpl_href, <- !app_assoc. reflexivity.
    + unfold spineItem. apply includes_app_r, includes_app_l.
      apply includes_spec. exists [], []. by rewrite app_nil_r.
  - vm_compute. reflexivity.
  - vm_compute. reflexivity.
Qed.

(** ** The navigation document *)

Lemma last_cons_default {A} (l : list A) : forall a d,
  List.last (a :: l) d = List.last l a.
Proof.
  induction l as [|b l IH]; intros a d; [done|].
  change (List.last (a :: b :: l) d) with (List.last (b :: l) d).
  change (List.last (b :: l) a) with (List.last (b :: l) a).
  rewrite !IH. done.
Qed.

Lemma lookup_last_default {A} (l : list A) : forall a,
  (a :: l) !! length l = Some (List.last l a).
Proof.
  induction l as [|b l IH]; intros a; [done|].
  cbn [length]. rewrite lookup_cons_ne_0 by lia. cbn [Nat.pred].
  rewrite IH. f_equal. symmetry. apply last_cons_default.
Qed.

(** The first run starts with the first record. *)
Lemma runs_head ch rest : exists t rs, runs (ch :: rest) = (ch, t) :: rs.
Proof.
  simpl. destruct (head rest), (runs rest) as [|[h t] rs];
    try destruct (decide _); eauto.
Qed.

(** The runs, one after the other, are the records. *)
Lemma runs_concat chs : concat (map runRecords (runs chs)) = chs.
Proof.
  induction chs as [|ch rest IH]; [done|]. simpl.
  destruct rest as [|next rest']; [done|].
  destruct (runs_head next rest') as (t & rs & Hr).
  rewrite Hr in IH |- *. cbn [head].
  destruct (decide _); cbn [map concat runRecords fst snd app] in *;
    by rewrite IH.
Qed.

(** The records of a run share its group. *)
Lemma runs_same_group chs :
  Forall (fun run => Forall (fun c => chapter c = chapter run.1) (runRecords run))
    (runs chs).
Proof.
  induction chs as [|ch rest IH]; [constructor|]. simpl.
  destruct rest as [|next rest']; [by repeat constructor|].
  destruct (runs_head next rest') as (t & rs & Hr).
  rewrite Hr in IH |- *. cbn [head]. inversion IH as [|? ? Hrun Hrs]; subst.
  destruct (decide _) as [Heq|Hne].
  - constructor; [|done]. cbn [runRecords fst snd] in *.
    constructor; [done|]. eapply Forall_impl; [exact Hrun|].
    intros c Hc. simpl in Hc. congruence.
  - constructor; [by repeat constructor|]. by constructor.
Qed.

(** A run ends where the group changes. *)
Lemma runs_boundaries chs : boundaries (runs chs).
Proof.
  induction chs as [|ch rest IH]; [done|]. simpl.
  destruct rest as [|next rest']; [done|].
  destruct (runs_head next rest') as (t & rs & Hr).
  rewrite Hr in IH |- *. cbn [head].
  destruct (decide _) as [Heq|Hne].
  - cbn [boundaries] in *. destruct IH as [H1 H2]. split; [|done].
    destruct rs; [done|]. cbn [fst] in *. congruence.
  - cbn [boundaries] in *. split; done.
Qed.

(** A group that comes back after another one gets a list of its own. *)
Example runs_recurring_group :
  let a1 := mkChapter "A" "One" "chapter1.xhtml" "x" in
  let b := mkChapter "B" "Two" "chapter2.xhtml" "y" in
  let a2 := mkChapter "A" "Three" "chapter3.xhtml" "z" in
  runs [a1; b; a2] = [(a1, []); (b, []); (a2, [])]
  /\ navText [a1; b; a2]
     = Some (navHead ++ renderRun (a1, []) ++ renderRun (b, [])
               ++ renderRun (a2, []) ++ navFoot).
Proof. split; vm_compute; reflexivity. Qed.

Lemma renderRun_unfold h t :
  renderRun (h, t)
  = navGroup (filename (List.last t h)) (chapter h)
      (navEntry h ++ concat (map navEntry t)).
Proof. unfold renderRun, runRecords. cbn [fst snd map concat]. reflexivity. Qed.

Lemma renderRuns_cons r rs :
  concat (map renderRun (r :: rs)) = renderRun r ++ concat (map renderRun rs).
Proof. cbn [map concat]. reflexivity. Qed.

Lemma entries_cons h t :
  concat (map navEntry (h :: t)) = navEntry h ++ concat (map navEntry t).
Proof. cbn [map concat]. reflexivity. Qed.

Lemma finishWith_runs rest : forall g items prev,
  finishWith g items prev rest =
  match head rest, runs rest with
  | Some next, (h, t) :: rs =>
      if decide (chapter next = g)
      then navGroup (filename (List.last t h)) g
             (items ++ concat (map navEntry (h :: t)))
             ++ concat (map renderRun rs)
      else navGroup (filename prev) g items
             ++ concat (map renderRun ((h, t) :: rs))
  | _, _ => navGroup (filename prev) g items
  end.
Proof.
  induction rest as [|ch rest IH]; intros g items prev;
    [cbn [finishWith head runs]; reflexivity|].
  cbn [finishWith head]. rewrite !IH. clear IH.
  destruct (runs_head ch rest) as (t0 & rs0 & Hr0). rewrite Hr0.
  revert Hr0. cbn [runs].
  destruct rest as [|next rest'].
  - cbn [head runs]. intros [= <- <-].
    destruct (decide (chapter ch = g)) as [Hg|Hg].
    + rewrite entries_cons. cbn [map concat List.last].
      rewrite !app_nil_r. reflexivity.
    + rewrite renderRuns_cons, renderRun_unfold. cbn [map concat List.last].
      rewrite !app_nil_r. reflexivity.
  - destruct (runs_head next rest') as (t & rs & Hr). rewrite Hr. cbn [head].
    destruct (decide (chapter next = chapter ch)) as [Hn|Hn];
      intros [= <- <-];
      destruct (decide (chapter ch = g)) as [Hg|Hg].
    + rewrite decide_True by congruence.
      rewrite last_cons_default, (entries_cons ch), <- !app_assoc. reflexivity.
    + rewrite renderRuns_cons, renderRun_unfold, last_cons_default.
      reflexivity.
    + rewrite decide_False by congruence.
      rewrite (entries_cons ch). cbn [map concat List.last].
      rewrite !app_nil_r. reflexivity.
    + rewrite (renderRuns_cons (ch, [])), (renderRun_unfold ch).
      cbn [map concat List.last]. rewrite !app_nil_r. reflexivity.
Qed.

(** Started on the first record, [finishWith] renders the runs. *)
Lemma finishWith_first ch rest :
  finishWith (chapter ch) (navEntry ch) ch rest
  = concat (map renderRun (runs (ch :: rest))).
Proof.
  rewrite finishWith_runs. cbn [runs].
  destruct rest as [|next rest'].
  - cbn [head runs]. rewrite renderRuns_cons, renderRun_unfold.
    cbn [map concat List.last]. rewrite !app_nil_r. reflexivity.
  - destruct (runs_head next rest') as (t & rs & Hr). rewrite Hr. cbn [head].
    destruct (decide (chapter next = chapter ch)) as [Hn|Hn].
    + rewrite renderRuns_cons, renderRun_unfold, last_cons_default.
      reflexivity.
    + rewrite (renderRuns_cons (ch, [])), (renderRun_unfold ch).
      cbn [map concat List.last]. rewrite !app_nil_r. reflexivity.
Qed.

Lemma previous_last (done todo : list Chapter) prev :
  last done = Some prev -> previous (done ++ todo) (length done) = Some prev.
Proof.
  intros Hl. destruct done as [|c done'] using rev_ind; [done|].
  rewrite last_snoc in Hl. injection Hl as ->.
  rewrite length_app. cbn [length]. rewrite Nat.add_1_r. cbn [previous].
  rewrite <- app_assoc. rewrite lookup_app_r by lia.
  by rewrite Nat.sub_diag.
Qed.

(** From an open group on, the loop puts out what [finishWith] says. *)
Lemma navLoop_finish chapters todo : forall done st prev,
  chapters = done ++ todo ->
  last done = Some prev ->
  currentChapter st <> [] ->
  Forall (fun c => chapter c <> []) todo ->
  exists st',
    navLoop chapters st (length done) todo = Some st'
    /\ currentChapter st' <> []
    /\ navItems st'
         ++ navGroup (filename (List.last todo prev)) (currentChapter st')
              (chapterItems st')
       = navItems st
           ++ finishWith (currentChapter st) (chapterItems st) prev todo.
Proof.
  induction todo as [|ch todo IH]; intros done st prev Hch Hlast Hcur Hne.
  - exists st. cbn [navLoop List.last finishWith]. done.
  - inversion Hne as [|? ? Hch1 Hne']; subst.
    cbn [navLoop finishWith]. unfold navStep.
    rewrite (previous_last done (ch :: todo) prev Hlast).
    assert (Hnext : forall st1,
      currentChapter st1 <> [] ->
      exists st',
        navLoop (done ++ ch :: todo) st1 (S (length done)) todo = Some st'
        /\ currentChapter st' <> []
        /\ navItems st'
             ++ navGroup (filename (List.last (ch :: todo) prev))
                  (currentChapter st') (chapterItems st')
           = navItems st1
               ++ finishWith (currentChapter st1) (chapterItems st1) ch todo).
    { intros st1 Hcur1.
      destruct (IH (done ++ [ch]) st1 ch) as (st' & Hrun & Hc' & Heq); auto.
      - by rewrite <- app_assoc.
      - apply last_snoc.
      - exists st'. rewrite length_app, Nat.add_1_r in Hrun.
        split; [exact Hrun|]. split; [done|].
        rewrite last_cons_default. exact Heq. }
    destruct (decide (chapter ch ≠ currentChapter st)) as [Hd|Hd].
    + rewrite (decide_True (P := currentChapter st ≠ [])) by done.
      cbn [mbind option_bind mret option_ret]. cbn [navItems currentChapter chapterItems].
      rewrite decide_False by done.
      match goal with |- context [navLoop _ ?s _ _] =>
        destruct (Hnext s) as (st' & -> & Hc' & Heq); [done|]
      end.
      exists st'. split; [done|]. split; [done|].
      rewrite Heq. cbn [navItems currentChapter chapterItems app].
      rewrite <- app_assoc. reflexivity.
    + apply dec_stable in Hd.
      cbn [mbind option_bind mret option_ret].
      rewrite decide_True by done.
      match goal with |- context [navLoop _ ?s _ _] =>
        destruct (Hnext s) as (st' & -> & Hc' & Heq); [done|]
      end.
      exists st'. split; [done|]. split; [done|].
      rewrite Heq. cbn [navItems currentChapter chapterItems]. reflexivity.
Qed.

(** With no group name empty, the navigation document is the runs of the
    records, one nested list per run, in order: records that follow each
    other in one group share a list, and a new list starts wherever the
    group is not that of the record before. *)
Theorem navText_groups (chs : list Chapter) :
  Forall (fun c => chapter c <> []) chs ->
  navText chs = Some (navHead ++ concat (map renderRun (runs chs)) ++ navFoot).
Proof.
  intros Hne. unfold navText, navItemsOf.
  destruct chs as [|ch rest]; [reflexivity|].
  inversion Hne as [|? ? Hch Hrest]; subst.
  cbn [navLoop]. unfold navStep.
  cbn [navInit currentChapter navItems chapterItems].
  rewrite (decide_True (P := chapter ch ≠ [])) by done.
  rewrite (decide_False (P := [] ≠ [])) by (intros H; by apply H).
  cbn [mbind option_bind mret option_ret currentChapter navItems chapterItems app].
  match goal with |- context [navLoop _ ?s _ _] =>
    destruct (navLoop_finish (ch :: rest) rest [ch] s ch)
      as (st' & Hrun & Hc' & Heq); try done
  end.
  cbn [length] in Hrun. rewrite Hrun.
  cbn [mbind option_bind mret option_ret].
  rewrite decide_True by done.
  cbn [previous length]. rewrite lookup_last_default.
  cbn [mbind option_bind mret option_ret].
  rewrite Heq. cbn [navItems currentChapter chapterItems app].
  rewrite finishWith_first. reflexivity.
Qed.

Lemma navLoop_total chapters todo : forall done st,
  chapters = done ++ todo ->
  (currentChapter st <> [] -> done <> []) ->
  exists st',
    navLoop chapters st (length done) todo = Some st'
    /\ (currentChapter st' <> [] -> chapters <> []).
Proof.
  induction todo as [|ch todo IH]; intros done st Hch Hdone.
  - exists st. split; [reflexivity|]. intros H. rewrite Hch, app_nil_r. auto.
  - assert (Hnext : forall st1,
      exists st',
        navLoop chapters st1 (S (length done)) todo = Some st'
        /\ (currentChapter st' <> [] -> chapters <> [])).
    { intros st1. destruct (IH (done ++ [ch]) st1) as (st' & Hrun & Hc').
      - by rewrite <- app_assoc.
      - intros _. by destruct done.
      - exists st'. by rewrite length_app, Nat.add_1_r in Hrun. }
    cbn [navLoop]. unfold navStep.
    destruct (decide (chapter ch ≠ currentChapter st)) as [Hd|Hd].
    + destruct (decide (currentChapter st ≠ [])) as [Hc|Hc].
      * destruct done as [|c done'] using rev_ind; [by apply Hdone in Hc|].
        rewrite Hch, (previous_last (done' ++ [c]) (ch :: todo) c)
          by apply last_snoc.
        rewrite <- Hch. cbn [mbind option_bind mret option_ret].
        apply Hnext.
      * cbn [mbind option_bind mret option_ret]. apply Hnext.
    + cbn [mbind option_bind mret option_ret]. apply Hnext.
Qed.

(** [createNav] never reads past the records: it gives a document for every
    sequence. *)
Lemma navText_total (chs : list Chapter) : is_Some (navText chs).
Proof.
  unfold navText, navItemsOf.
  destruct (navLoop_total chs chs [] navInit) as (st & Hrun & Hc);
    [done | done |].
  cbn [length] in Hrun. rewrite Hrun. cbn [mbind option_bind mret option_ret].
  destruct (decide (currentChapter st ≠ [])) as [Hd|Hd].
  - destruct chs as [|c rest]; [by apply Hc in Hd|].
    cbn [previous length]. rewrite lookup_last_default.
    cbn [mbind option_bind mret option_ret]. eauto.
  - cbn [mbind option_bind mret option_ret]. eauto.
Qed.

(** C5 fails on the code where a group has no name.  A first-level heading
    of blanks gives a record whose group is the empty string, the value
    [createNav] keeps in [currentChapter] while no group is open: such a
    record opens no group and its entry is never put out.  Alone, it leaves
    the navigation list empty; between two named groups, it goes missing
    from the lists. *)
Theorem navText_blank_group_dropped :
  let blank := mkChapter "" "T" "chapter1.xhtml" "x" in
  chapters (processBody (js "<h1 > </h1><h2 >T</h2>x")) = [blank]
  /\ navText [blank] = Some (navHead ++ navFoot)
  /\ runs [blank] = [(blank, [])]
  /\ let a := mkChapter "A" "One" "chapter1.xhtml" "x" in
     let lost := mkChapter "" "Two" "chapter2.xhtml" "y" in
     let b := mkChapter "B" "Three" "chapter3.xhtml" "z" in
     navText [a; lost; b]
     = Some (navHead ++ renderRun (a, []) ++ renderRun (b, []) ++ navFoot).
Proof. repeat split; vm_compute; reflexivity. Qed.


(** ** The file system *)

Lemma startsWith_refl s : startsWith s s = true.
Proof. apply startsWith_spec. exists []. by rewrite app_nil_r. Qed.

Lemma atOrUnder_refl p : atOrUnder p p = true.
Proof. unfold atOrUnder. by rewrite bool_decide_eq_true_2. Qed.

(** What is at or below [dir] is [dir] followed by nothing or by a slash
    and more. *)
Lemma atOrUnder_spec dir p :
  atOrUnder dir p = true <-> p = dir \/ exists b, p = dir ++ SLASH :: b.
Proof.
  unfold atOrUnder, under.
  rewrite orb_true_iff, bool_decide_eq_true, startsWith_spec.
  split; (intros [H | [b Hb]]; [by left | right; exists b]).
  - by rewrite Hb, <- app_assoc.
  - by rewrite Hb, <- app_assoc.
Qed.

Lemma existsSync_spec (fs : gmap str Node) p :
  existsSync fs p = true <-> exists k n, fs !! k = Some n /\ atOrUnder p k = true.
Proof.
  unfold existsSync. rewrite existsb_exists. split.
  - intros ([k n] & Hin & Hk). exists k, n. split; [|done].
    apply elem_of_map_to_list. by apply list_elem_of_In.
  - intros (k & n & Hl & Hk). exists (k, n). split; [|done].
    apply list_elem_of_In. by apply elem_of_map_to_list.
Qed.

Lemma existsSync_lookup (fs : gmap str Node) p n :
  fs !! p = Some n -> existsSync fs p = true.
Proof.
  intros H. apply existsSync_spec. exists p, n. split; [done|].
  apply atOrUnder_refl.
Qed.

Lemma upToSlash_app name b :
  Forall (fun c => c <> SLASH) name ->
  upToSlash (name ++ SLASH :: b) = name /\ upToSlash name = name.
Proof.
  induction 1 as [|c name Hc Hn [IH1 IH2]]; simpl.
  - split; reflexivity.
  - apply N.eqb_neq in Hc. rewrite Hc. by rewrite IH1, IH2.
Qed.

(** A name under which something exists in [dir] shows in the listing of
    [dir]. *)
Lemma readdirSync_exists (fs : gmap str Node) dir name :
  Forall (fun c => c <> SLASH) name ->
  existsSync fs (join dir name) = true ->
  name ∈ readdirSync fs dir.
Proof.
  intros Hname (k & n & Hl & Hk)%existsSync_spec.
  unfold readdirSync. apply elem_of_remove_dups, list_elem_of_omap.
  exists (k, n). split; [by apply elem_of_map_to_list|].
  cbn [fst]. unfold childName, under, join in *.
  apply atOrUnder_spec in Hk as [-> | [b ->]].
  - rewrite (cons_middle SLASH), app_assoc, startsWith_app.
    rewrite drop_app_length' by (rewrite length_app; simpl; lia).
    f_equal. by apply (upToSlash_app name []).
  - rewrite (cons_middle SLASH dir), app_assoc, <- app_assoc, startsWith_app.
    rewrite drop_app_length' by (rewrite length_app; simpl; lia).
    f_equal. by apply upToSlash_app.
Qed.

(** ** The metadata patch never takes the fallback *)

Lemma NoPlain_same {A} (m : Proc A) :
  (forall w, ran (m w).2 = ran w) -> NoPlain m.
Proof. intros H w. exists []. by rewrite H, app_nil_r. Qed.

Lemma NoPlain_ret {A} (a : A) : NoPlain (ret a).
Proof. by apply NoPlain_same. Qed.

Lemma NoPlain_exit {A} c : NoPlain (@exit A c).
Proof. by apply NoPlain_same. Qed.

Lemma NoPlain_throw {A} e : NoPlain (@throw A e).
Proof. by apply NoPlain_same. Qed.

Lemma NoPlain_consoleError line : NoPlain (consoleError line).
Proof. by apply NoPlain_same. Qed.

Lemma NoPlain_exists p : NoPlain (exists_ p).
Proof. by apply NoPlain_same. Qed.

Lemma NoPlain_mkdirSync p : NoPlain (mkdirSync p).
Proof. by apply NoPlain_same. Qed.

Lemma NoPlain_writeFileSync p t : NoPlain (writeFileSync p t).
Proof. by apply NoPlain_same. Qed.

Lemma NoPlain_readdir p : NoPlain (readdir p).
Proof. by apply NoPlain_same. Qed.

Lemma NoPlain_readFileSync p : NoPlain (readFileSync p).
Proof.
  apply NoPlain_same. intros w. unfold readFileSync.
  by destruct (fs w !! p) as [[]|].
Qed.

Lemma NoPlain_statSync p : NoPlain (statSync p).
Proof.
  apply NoPlain_same. intros w. unfold statSync.
  by destruct (existsSync (fs w) p).
Qed.

Lemma NoPlain_firstExisting ps : NoPlain (UpdateEpubMetadata.firstExisting ps).
Proof. by apply NoPlain_same. Qed.

Lemma NoPlain_execPromise sh cmd : isPlain cmd = false -> NoPlain (execPromise sh cmd).
Proof.
  intros Hc w. exists [cmd]. unfold execPromise.
  destruct (failure (sh cmd (fs w))); cbn [snd ran]; by repeat constructor.
Qed.

Lemma NoPlain_bind {A B} (m : Proc A) (k : A -> Proc B) :
  NoPlain m -> (forall a, NoPlain (k a)) -> NoPlain (bind m k).
Proof.
  intros Hm Hk w. unfold bind. destruct (Hm w) as (l & Hl & Hf).
  destruct (m w) as [[a | e | c] w1]; cbn [snd] in *; [|by exists l..].
  destruct (Hk a w1) as (l' & Hl' & Hf'). exists (l ++ l').
  rewrite Hl', Hl, <- app_assoc. split; [done|]. by apply Forall_app.
Qed.

Lemma NoPlain_tryCatch {A} (m : Proc A) (h : str -> Proc A) :
  NoPlain m -> (forall e, NoPlain (h e)) -> NoPlain (tryCatch m h).
Proof.
  intros Hm Hh w. unfold tryCatch. destruct (Hm w) as (l & Hl & Hf).
  destruct (m w) as [[a | e | c] w1]; cbn [snd] in *; [by exists l| |by exists l].
  destruct (Hh e w1) as (l' & Hl' & Hf'). exists (l ++ l').
  rewrite Hl', Hl, <- app_assoc. split; [done|]. by apply Forall_app.
Qed.

Lemma mimetype_no_slash : Forall (fun c => c <> SLASH) (js "mimetype").
Proof. repeat constructor; by vm_compute. Qed.

Lemma ensureMimetype_exists env w :
  existsSync (fs (ensureMimetype env w)) (UpdateEpubMetadata.mimetypePath env) = true.
Proof.
  unfold ensureMimetype.
  destruct (existsSync (fs w) _) eqn:He; [done|]. cbn [fs].
  eapply existsSync_lookup. apply lookup_insert_eq.
Qed.

Import UpdateEpubMetadata.

(** Lines 131 to 152 always end in the conformant command. *)
Lemma repackage_conformant sh env w :
  repackage sh env w
  = (_ <- execPromise sh (ZipEpubAll (tempDir env) (outputFile env));; ret tt)
      (ensureMimetype env w).
Proof.
  pose proof (ensureMimetype_exists env w) as He.
  apply (readdirSync_exists _ (tempDir env) (js "mimetype") mimetype_no_slash) in He.
  revert He. unfold repackage, ensureMimetype, bind, exists_, readdir, ret.
  destruct (existsSync (fs w) (mimetypePath env)); cbn [negb];
    unfold writeFileSync; cbn [fs]; intros He;
    rewrite bool_decide_eq_true_2 by exact He; reflexivity.
Qed.

Lemma NoPlain_repackage sh env : NoPlain (repackage sh env).
Proof.
  intros w. rewrite repackage_conformant.
  assert (NoPlain (_ <- execPromise sh (ZipEpubAll (tempDir env) (outputFile env));;
                   ret tt)) as H.
  { apply NoPlain_bind; [by apply NoPlain_execPromise|]. intros. apply NoPlain_ret. }
  destruct (H (ensureMimetype env w)) as (l & Hl & Hf). exists l. split; [|done].
  rewrite Hl. unfold ensureMimetype. by destruct (existsSync _ _).
Qed.

Lemma NoPlain_updateEpubMetadata sh env : NoPlain (updateEpubMetadata sh env).
Proof.
  unfold updateEpubMetadata, searchOpf.
  repeat first
    [ apply NoPlain_ret | apply NoPlain_exit | apply NoPlain_consoleError
    | apply NoPlain_exists | apply NoPlain_mkdirSync | apply NoPlain_writeFileSync
    | apply NoPlain_readFileSync | apply NoPlain_statSync
    | apply NoPlain_firstExisting | apply NoPlain_repackage
    | apply NoPlain_execPromise; reflexivity
    | apply NoPlain_bind | apply NoPlain_tryCatch
    | match goal with
      | |- NoPlain (if ?b then _ else _) => destruct b
      | |- NoPlain (match ?o with Some _ => _ | None => _ end) => destruct o
      | |- forall _, _ => intro
      end ].
Qed.

(** C9: in the metadata patch the listing of the scratch directory always
    shows [mimetype] once lines 134 to 138 have run, so that the command
    built is the conformant one (mimetype stored first, the rest added
    after) and [zip -r out *] is never run, whatever the world and whatever
    the commands do. *)
Theorem repackage_never_falls_back (sh : Shell) (env : Env) (w : World) :
  js "mimetype" ∈ readdirSync (fs (ensureMimetype env w)) (tempDir env)
  /\ repackage sh env w
     = (_ <- execPromise sh (ZipEpubAll (tempDir env) (outputFile env));; ret tt)
         (ensureMimetype env w)
  /\ exists l, ran (main sh env w).2 = ran w ++ l
               /\ Forall (fun c => isPlain c = false) l.
Proof.
  split; [|split].
  - apply readdirSync_exists; [apply mimetype_no_slash|].
    apply ensureMimetype_exists.
  - apply repackage_conformant.
  - unfold main, runScript.
    assert (NoPlain (tryCatch (updateEpubMetadata sh env) throw)) as H.
    { apply NoPlain_tryCatch; [apply NoPlain_updateEpubMetadata|].
      intros. apply NoPlain_throw. }
    destruct (H w) as (l & Hl & Hf). exists l. split; [|done].
    by destruct (tryCatch _ _ w) as [[a | e | c] w1].
Qed.


(** ** The build up to the body *)





(** Making directories leaves every other path as it was. *)
Lemma madeDirs_other dirs p : forall fs,
  p ∉ dirs -> madeDirs dirs fs !! p = fs !! p.
Proof.
  induction dirs as [|d dirs IH]; intros fs Hp; [done|].
  apply not_elem_of_cons in Hp as [Hpd Hp].
  change (madeDirs (d :: dirs) fs)
    with (madeDirs dirs (if existsSync fs d then fs else <[d := Dir]> fs)).
  rewrite IH by done.
  destruct (existsSync fs d); [done|]. by rewrite lookup_insert_ne.
Qed.

(** Two paths of the project that part ways after the root. *)
Ltac path_neq :=
  let H := fresh in
  unfold BuildEpub.epubPath, BuildEpub.epubFilename, BuildEpub.staticDir,
    BuildEpub.chaptersDir, BuildEpub.allHtmlPath, BuildEpub.outputDir,
    UpdateEpubMetadata.inputFile, UpdateEpubMetadata.outputFile,
    UpdateEpubMetadata.mimetypePath, UpdateEpubMetadata.tempDir, join;
  rewrite <- ?app_assoc; intros H; apply app_inv_head in H;
  vm_compute in H; discriminate H.

Lemma buildDirs_other env p :
  (forall d, d ∈ buildDirs env -> p <> d) ->
  forall fs, madeDirs (buildDirs env) fs !! p = fs !! p.
Proof.
  intros H fs. apply madeDirs_other. intros Hin. by apply (H p).
Qed.

Lemma allHtmlPath_not_dir env : BuildEpub.allHtmlPath env ∉ buildDirs env.
Proof.
  unfold buildDirs. rewrite !not_elem_of_cons. repeat split;
    try path_neq. apply not_elem_of_nil.
Qed.









Lemma siteGenerated_there sh env w n :
  fs w !! BuildEpub.allHtmlPath env = Some n ->
  siteGenerated sh env w
  = Some {| fs := madeDirs (buildDirs env) (fs w); stderr := stderr w; ran := ran w |}.
Proof.
  intros H. unfold siteGenerated.
  rewrite (existsSync_lookup _ _ n); [done|].
  rewrite madeDirs_other by apply allHtmlPath_not_dir. done.
Qed.



(** ** The chapter files *)

Lemma digits_inj u : forall v, digits u = digits v -> u = v.
Proof.
  induction u as [|u IH|u IH|u IH|u IH|u IH|u IH|u IH|u IH|u IH|u IH];
    intros [|v|v|v|v|v|v|v|v|v|v] H; simpl in H;
    try discriminate H; try reflexivity;
    injection H as H; f_equal; by apply IH.
Qed.

Lemma numToString_inj a b : numToString a = numToString b -> a = b.
Proof.
  intros H. by apply DecimalN.Unsigned.to_uint_inj, digits_inj.
Qed.

Lemma chapterFile_inj a b : chapterFile a = chapterFile b -> a = b.
Proof.
  unfold chapterFile. intros H. apply app_inv_head, app_inv_tail in H.
  by apply Nat2N.inj, numToString_inj.
Qed.

(** The names of the chapter files are all different. *)
Lemma processBody_NoDup bodyContent :
  NoDup (map BuildEpub.filename (BuildEpub.chapters (BuildEpub.processBody bodyContent))).
Proof.
  destruct (processBody_inv bodyContent) as [_ Hn _ _]. rewrite Hn.
  apply NoDup_fmap_2; [|apply NoDup_seq].
  intros a b. apply chapterFile_inj.
Qed.

Lemma writeChapters_run env files : forall w,
  BuildEpub.writeChapters env files w
  = (Ret tt, {| fs := wroteChapters (BuildEpub.chaptersDir env) files (fs w);
                stderr := stderr w; ran := ran w |}).
Proof.
  unfold BuildEpub.writeChapters.
  induction files as [|file files IH]; intros w.
  - by destruct w.
  - cbn [BuildEpub.forEach]. unfold bind at 1, writeFileSync at 1.
    rewrite IH. reflexivity.
Qed.

Lemma join_inj dir a b : join dir a = join dir b -> a = b.
Proof. unfold join. intros H. apply app_inv_head in H. by injection H. Qed.


Lemma wroteChapters_fresh dir files name : forall fs,
  name ∉ map fst files ->
  wroteChapters dir files fs !! join dir name = fs !! join dir name.
Proof.
  induction files as [|file files IH]; intros fs Hn; [done|].
  cbn [map] in Hn. apply not_elem_of_cons in Hn as [Hne Hn].
  change (wroteChapters dir (file :: files) fs)
    with (wroteChapters dir files (<[join dir file.1 := File file.2]> fs)).
  rewrite IH by done. rewrite lookup_insert_ne; [done|].
  intros H. apply join_inj in H. done.
Qed.

(** With names all different, each file is there with its text. *)
Lemma wroteChapters_lookup {A} dir (name text : A -> str) (l : list A) : forall fs,
  NoDup (map name l) ->
  Forall (fun r =>
            wroteChapters dir (map (fun r => (name r, text r)) l) fs
              !! join dir (name r) = Some (File (text r)))
    l.
Proof.
  induction l as [|a l IH]; intros fs Hnd; [constructor|].
  cbn [map] in Hnd. apply NoDup_cons in Hnd as [Hfresh Hnd].
  cbn [map].
  change (wroteChapters dir ((name a, text a) :: map (fun r => (name r, text r)) l) fs)
    with (wroteChapters dir (map (fun r => (name r, text r)) l)
            (<[join dir (name a) := File (text a)]> fs)).
  constructor; [|by apply IH].
  rewrite wroteChapters_fresh.
  - apply lookup_insert_eq.
  - by rewrite map_map.
Qed.

Lemma chapterXhtml_unfold r :
  chapterXhtml r = BuildEpub.htmlToXHTML (headed r) (BuildEpub.chTitle r).
Proof. unfold chapterXhtml, BuildEpub.htmlToXHTML. reflexivity. Qed.

Lemma processBody_written bodyContent :
  BuildEpub.written (BuildEpub.processBody bodyContent)
  = map (fun r => (BuildEpub.filename r,
                   BuildEpub.htmlToXHTML (headed r) (BuildEpub.chTitle r)))
      (BuildEpub.chapters (BuildEpub.processBody bodyContent)).
Proof.
  destruct (processBody_inv bodyContent) as [_ _ _ Hw].
  rewrite Hw. apply map_ext. intros r. rewrite chapterXhtml_unfold. reflexivity.
Qed.

Lemma writeChapters_lookup {A} env (name text : A -> str) (l : list A) w :
  NoDup (map name l) ->
  Forall (fun r =>
            fs (BuildEpub.writeChapters env (map (fun r => (name r, text r)) l) w).2
              !! join (BuildEpub.chaptersDir env) (name r) = Some (File (text r)))
    l.
Proof.
  intros Hnd. rewrite writeChapters_run. cbn [snd fs].
  by apply wroteChapters_lookup.
Qed.

(** What is written for a record is not its content alone.  The fragment
    handed to [htmlToXHTML] is the content with a fresh [<h1>] holding the
    group's name and a fresh [<h2>] holding the section's title in front of
    it; this fragment is normalized and wrapped in the XHTML shell, and the
    result is the text of the record's file in the chapters directory. *)
Theorem chapter_files_regenerate_headings (bodyContent : str) :
  let st := BuildEpub.processBody bodyContent in
  BuildEpub.written st
  = map (fun r => (BuildEpub.filename r,
                   BuildEpub.htmlToXHTML (headed r) (BuildEpub.chTitle r)))
      (BuildEpub.chapters st)
  /\ (forall r, headed r = js "<h1>" ++ BuildEpub.chapter r ++ tpl "</h1>
<h2>" ++ BuildEpub.chTitle r ++ tpl "</h2>
" ++ BuildEpub.content r)
  /\ (forall html title,
        BuildEpub.htmlToXHTML html title
        = BuildEpub.xhtmlHead title ++ BuildEpub.normalize html ++ BuildEpub.xhtmlFoot)
  /\ forall env w,
       Forall (fun r =>
                 fs (BuildEpub.writeChapters env (BuildEpub.written st) w).2
                   !! join (BuildEpub.chaptersDir env) (BuildEpub.filename r)
                 = Some (File (BuildEpub.htmlToXHTML (headed r) (BuildEpub.chTitle r))))
         (BuildEpub.chapters st).
Proof.
  cbv zeta. split; [apply processBody_written|].
  split; [intros r; unfold headed; reflexivity|].
  split; [intros html title; unfold BuildEpub.htmlToXHTML; reflexivity|].
  intros env w. rewrite processBody_written.
  apply writeChapters_lookup, processBody_NoDup.
Qed.


(** ** Further properties of the two scripts *)

(** *** The metadata patch without its input *)

(** Without the input archive the patch reports it and ends with status 1:
    no command is run and the file system is not touched. *)
Theorem updateEpubMetadata_missing_input (sh : Shell)
    (env : UpdateEpubMetadata.Env) (w : World) :
  existsSync (fs w) (UpdateEpubMetadata.inputFile env) = false ->
  UpdateEpubMetadata.main sh env w
  = (1%Z, {| fs := fs w;
             stderr := stderr w
               ++ [js "❌ Input file not found: " ++ UpdateEpubMetadata.inputFile env];
             ran := ran w |}).
Proof.
  intros H.
  unfold UpdateEpubMetadata.main, runScript, tryCatch,
    UpdateEpubMetadata.updateEpubMetadata.
  unfold bind at 1. unfold exists_ at 1. rewrite H. cbn [negb].
  unfold bind, consoleError, exit. reflexivity.
Qed.

Lemma updateEpubMetadata_missing_input_witness :
  UpdateEpubMetadata.main posix samplePatchEnv emptyWorld
  = (1%Z, {| fs := fs emptyWorld;
             stderr := stderr emptyWorld
               ++ [js "❌ Input file not found: "
                     ++ UpdateEpubMetadata.inputFile samplePatchEnv];
             ran := ran emptyWorld |}).
Proof.
  apply (updateEpubMetadata_missing_input posix samplePatchEnv emptyWorld).
  vm_compute. reflexivity.
Defined.

(** *** The exit status *)

Lemma ExitsWithOne_quiet {A} (m : Proc A) :
  (forall w c, (m w).1 <> Exit c) -> ExitsWithOne m.
Proof. intros H w c Hc. by apply H in Hc. Qed.

Lemma ExitsWithOne_ret {A} (a : A) : ExitsWithOne (ret a).
Proof. by apply ExitsWithOne_quiet. Qed.

Lemma ExitsWithOne_throw {A} e : ExitsWithOne (@throw A e).
Proof. by apply ExitsWithOne_quiet. Qed.

Lemma ExitsWithOne_exit {A} : ExitsWithOne (@exit A 1).
Proof. intros w c [= <-]. done. Qed.

Lemma ExitsWithOne_consoleError line : ExitsWithOne (consoleError line).
Proof. by apply ExitsWithOne_quiet. Qed.

Lemma ExitsWithOne_exists p : ExitsWithOne (exists_ p).
Proof. by apply ExitsWithOne_quiet. Qed.

Lemma ExitsWithOne_mkdirSync p : ExitsWithOne (mkdirSync p).
Proof. by apply ExitsWithOne_quiet. Qed.

Lemma ExitsWithOne_writeFileSync p t : ExitsWithOne (writeFileSync p t).
Proof. by apply ExitsWithOne_quiet. Qed.

Lemma ExitsWithOne_readdir p : ExitsWithOne (readdir p).
Proof. by apply ExitsWithOne_quiet. Qed.

Lemma ExitsWithOne_firstExisting ps :
  ExitsWithOne (UpdateEpubMetadata.firstExisting ps).
Proof. by apply ExitsWithOne_quiet. Qed.

Lemma ExitsWithOne_readFileSync p : ExitsWithOne (readFileSync p).
Proof.
  apply ExitsWithOne_quiet. intros w c. unfold readFileSync.
  by destruct (fs w !! p) as [[]|].
Qed.

Lemma ExitsWithOne_statSync p : ExitsWithOne (statSync p).
Proof.
  apply ExitsWithOne_quiet. intros w c. unfold statSync.
  by destruct (existsSync (fs w) p).
Qed.

Lemma ExitsWithOne_execPromise sh cmd : ExitsWithOne (execPromise sh cmd).
Proof.
  apply ExitsWithOne_quiet. intros w c. unfold execPromise.
  by destruct (failure (sh cmd (fs w))).
Qed.

Lemma ExitsWithOne_bind {A B} (m : Proc A) (k : A -> Proc B) :
  ExitsWithOne m -> (forall a, ExitsWithOne (k a)) -> ExitsWithOne (bind m k).
Proof.
  intros Hm Hk w c. unfold bind. specialize (Hm w).
  destruct (m w) as [[a | e | c'] w1]; cbn [fst] in *.
  - apply Hk.
  - done.
  - intros [= <-]. by apply Hm.
Qed.

Lemma ExitsWithOne_tryCatch {A} (m : Proc A) (h : str -> Proc A) :
  ExitsWithOne m -> (forall e, ExitsWithOne (h e)) -> ExitsWithOne (tryCatch m h).
Proof.
  intros Hm Hh w c. unfold tryCatch. specialize (Hm w).
  destruct (m w) as [[a | e | c'] w1]; cbn [fst] in *.
  - done.
  - apply Hh.
  - intros [= <-]. by apply Hm.
Qed.

Lemma ExitsWithOne_forEach {A} (l : list A) (f : A -> Proc unit) :
  (forall a, ExitsWithOne (f a)) -> ExitsWithOne (BuildEpub.forEach l f).
Proof.
  intros Hf. induction l as [|a l IH]; cbn [BuildEpub.forEach].
  - apply ExitsWithOne_ret.
  - apply ExitsWithOne_bind; [apply Hf | by intros _].
Qed.

Ltac exits_with_one :=
  repeat first
    [ apply ExitsWithOne_ret | apply ExitsWithOne_exit | apply ExitsWithOne_throw
    | apply ExitsWithOne_consoleError
    | apply ExitsWithOne_exists | apply ExitsWithOne_mkdirSync
    | apply ExitsWithOne_writeFileSync | apply ExitsWithOne_readdir
    | apply ExitsWithOne_readFileSync | apply ExitsWithOne_statSync
    | apply ExitsWithOne_firstExisting | apply ExitsWithOne_execPromise
    | apply ExitsWithOne_forEach
    | apply ExitsWithOne_bind | apply ExitsWithOne_tryCatch
    | match goal with
      | |- ExitsWithOne (if ?b then _ else _) => destruct b
      | |- ExitsWithOne (match ?o with Some _ => _ | None => _ end) => destruct o
      | |- forall _, _ => intro
      end ].

Lemma ExitsWithOne_updateEpubMetadata sh env :
  ExitsWithOne (UpdateEpubMetadata.updateEpubMetadata sh env).
Proof.
  unfold UpdateEpubMetadata.updateEpubMetadata, UpdateEpubMetadata.searchOpf,
    UpdateEpubMetadata.repackage.
  exits_with_one.
Qed.

Lemma ExitsWithOne_buildEPUB sh env : ExitsWithOne (BuildEpub.buildEPUB sh env).
Proof.
  unfold BuildEpub.buildEPUB, BuildEpub.createDirectories,
    BuildEpub.createMimetype, BuildEpub.createContainer,
    BuildEpub.createDisplayOptions, BuildEpub.createCSS,
    BuildEpub.writeChapters, BuildEpub.createOPF, BuildEpub.createNav.
  exits_with_one.
Qed.

Lemma runScript_status (m : Proc unit) (h : str -> Proc unit) w :
  ExitsWithOne m -> (forall e, ExitsWithOne (h e)) ->
  (runScript m h w).1 = 0%Z \/ (runScript m h w).1 = 1%Z.
Proof.
  intros Hm Hh. unfold runScript.
  pose proof (ExitsWithOne_tryCatch m h Hm Hh w) as H.
  destruct (tryCatch m h w) as [[a | e | c] w1]; cbn [fst] in *; auto.
Qed.

(** Whatever the world and whatever the commands do, either script ends
    with status 0 or with status 1. *)
Theorem exit_status_zero_or_one (sh : Shell) (w : World) :
  (forall env, (BuildEpub.main sh env w).1 = 0%Z \/ (BuildEpub.main sh env w).1 = 1%Z)
  /\ (forall env, (UpdateEpubMetadata.main sh env w).1 = 0%Z
                  \/ (UpdateEpubMetadata.main sh env w).1 = 1%Z).
Proof.
  split; intros env.
  - apply runScript_status; [apply ExitsWithOne_buildEPUB|].
    intros e. exits_with_one.
  - apply runScript_status; [apply ExitsWithOne_updateEpubMetadata|].
    intros e. exits_with_one.
Qed.

(** *** The directories of the build *)








(** *** The site that cannot be generated *)




(** *** The build of a site with a body *)








(** *** Text that [htmlToXHTML] has nothing to do on *)

Lemma caseless_lt : Caseless 60.
Proof.
  intros ic ch. unfold canonicalize, ascii_lower. destruct ic; simpl.
  - destruct (97 <=? ch) eqn:H1, (ch <=? 122) eqn:H2; simpl; try (intros <-; done).
    apply N.leb_le in H1, H2. lia.
  - by intros <-.
Qed.

Lemma caseless_amp : Caseless 38.
Proof.
  intros ic ch. unfold canonicalize, ascii_lower. destruct ic; simpl.
  - destruct (97 <=? ch) eqn:H1, (ch <=? 122) eqn:H2; simpl; try (intros <-; done).
    apply N.leb_le in H1, H2. lia.
  - by intros <-.
Qed.

(** A pattern that starts with a character matches nowhere else. *)
Lemma matcher_firstChar ic r c :
  firstChar r = Some c -> Caseless c ->
  forall x k, head (rest x) <> Some c -> matcher ic r x k = None.
Proof.
  intros Hf Hc. induction r as [| p | | neg cs | | r1 IH1 r2 IH2 | r1 IH1 r2 IH2
                               | g r IH | i r IH]; try discriminate Hf;
    intros x k Hx; cbn [firstChar matcher] in *.
  - injection Hf as ->. unfold matchChar.
    destruct (rest x) as [|ch s']; [done|].
    destruct (canonicalize ic c =? canonicalize ic ch) eqn:He; [|done].
    apply N.eqb_eq, Hc in He. subst. by destruct Hx.
  - by apply IH1.
  - by apply IH.
Qed.

Lemma matchAt_firstChar re c idx s :
  firstChar (source re) = Some c -> Caseless c ->
  head s <> Some c -> matchAt re idx s = None.
Proof.
  intros Hf Hc Hs. unfold matchAt.
  by rewrite (matcher_firstChar _ _ c Hf Hc).
Qed.

Lemma pieces_no_firstChar re c s :
  firstChar (source re) = Some c -> Caseless c ->
  Forall (fun ch => ch <> c) s ->
  forall idx, pieces re idx 0 s = map Gap s.
Proof.
  intros Hf Hc. induction 1 as [|ch s Hch Hs IH]; intros idx; cbn [pieces map].
  - by rewrite (matchAt_firstChar re c).
  - rewrite (matchAt_firstChar re c) by (try done; cbn; congruence).
    by rewrite IH.
Qed.

Lemma concat_map_Gap whole t s : concat (map (pieceOut whole t) (map Gap s)) = s.
Proof. induction s as [|c s IH]; [done|]. cbn [map concat pieceOut app]. by rewrite IH. Qed.

(** A global replacement leaves alone a text in which the first character
    of the pattern does not occur. *)
Lemma replace_no_firstChar re c t s :
  flagGlobal re = true ->
  firstChar (source re) = Some c -> Caseless c ->
  Forall (fun ch => ch <> c) s ->
  replace re t s = s.
Proof.
  intros Hg Hf Hc Hs. unfold replace, replaceAll. rewrite Hg.
  rewrite (pieces_no_firstChar re c) by done. apply concat_map_Gap.
Qed.

(** A fragment without [<] and without [&] goes through the normalization
    unchanged, so that [htmlToXHTML] only wraps it. *)
Theorem normalize_plain_text (html title : str) :
  Forall (fun ch => ch <> 60 /\ ch <> 38) html ->
  BuildEpub.normalize html = html
  /\ BuildEpub.htmlToXHTML html title
     = BuildEpub.xhtmlHead title ++ html ++ BuildEpub.xhtmlFoot.
Proof.
  intros H.
  assert (Forall (fun ch => ch <> 60) html) as Hlt
    by (eapply Forall_impl; [exact H|]; by intros ? [? ?]).
  assert (Forall (fun ch => ch <> 38) html) as Hamp
    by (eapply Forall_impl; [exact H|]; by intros ? [? ?]).
  assert (BuildEpub.normalize html = html) as Hn.
  { unfold BuildEpub.normalize.
    rewrite (replace_no_firstChar BuildEpub.reDoctype 60)
      by (done || apply caseless_lt || (vm_compute; reflexivity)).
    rewrite (replace_no_firstChar BuildEpub.reBr 60)
      by (done || apply caseless_lt || (vm_compute; reflexivity)).
    rewrite (replace_no_firstChar BuildEpub.reHr 60)
      by (done || apply caseless_lt || (vm_compute; reflexivity)).
    rewrite (replace_no_firstChar (BuildEpub.reVoid "img") 60)
      by (done || apply caseless_lt || (vm_compute; reflexivity)).
    rewrite (replace_no_firstChar (BuildEpub.reVoid "meta") 60)
      by (done || apply caseless_lt || (vm_compute; reflexivity)).
    rewrite (replace_no_firstChar (BuildEpub.reVoid "link") 60)
      by (done || apply caseless_lt || (vm_compute; reflexivity)).
    rewrite (replace_no_firstChar BuildEpub.reNbsp 38)
      by (done || apply caseless_amp || (vm_compute; reflexivity)).
    rewrite (replace_no_firstChar BuildEpub.reCopy 38)
      by (done || apply caseless_amp || (vm_compute; reflexivity)).
    reflexivity. }
  split; [exact Hn|]. unfold BuildEpub.htmlToXHTML. by rewrite Hn.
Qed.

Lemma normalize_plain_text_witness :
  BuildEpub.normalize (js "text1") = js "text1"
  /\ BuildEpub.htmlToXHTML (js "text1") (js "One")
     = BuildEpub.xhtmlHead (js "One") ++ js "text1" ++ BuildEpub.xhtmlFoot.
Proof.
  apply (normalize_plain_text (js "text1") (js "One")).
  repeat constructor; by vm_compute.
Defined.

(** *** Bodies without the heading markers *)

Lemma includes_startsWith s p : includes s p = false -> startsWith s p = false.
Proof. destruct s; simpl; by intros [? ?]%orb_false_iff. Qed.

Lemma includes_tail c s p : includes (c :: s) p = false -> includes s p = false.
Proof. simpl. by intros [? ?]%orb_false_iff. Qed.

(** Nothing to split at: the text comes back in one piece. *)
Lemma splitFrom_Lit_none p g s : forall idx acc,
  includes s p = false ->
  splitFrom (litRe p g) idx 0 acc s = [rev acc ++ s].
Proof.
  induction s as [|ch s IH]; intros idx acc Hn.
  - cbn [splitFrom]. by rewrite app_nil_r.
  - cbn [splitFrom]. rewrite matchAt_Lit, (includes_startsWith _ _ Hn).
    rewrite IH by (by apply includes_tail in Hn).
    cbn [rev]. by rewrite <- app_assoc.
Qed.

Lemma split_Lit_none p g s :
  includes s p = false -> split (litRe p g) s = [s].
Proof.
  intros Hn. unfold split. destruct s as [|ch s].
  - unfold test, exec. cbn [execFrom]. rewrite matchAt_Lit.
    by rewrite (includes_startsWith _ _ Hn).
  - by rewrite splitFrom_Lit_none.
Qed.

(** The pieces of a split are stretches of the text. *)
Lemma splitFrom_infix re s : forall idx skip acc t,
  (skip <> 0%nat -> acc = []) ->
  t ∈ splitFrom re idx skip acc s ->
  exists a b, rev acc ++ s = a ++ t ++ b.
Proof.
  induction s as [|ch s IH]; intros idx skip acc t Hacc Ht.
  - cbn [splitFrom] in Ht. apply list_elem_of_singleton in Ht as ->.
    exists [], []. by rewrite !app_nil_r.
  - cbn [splitFrom] in Ht. destruct skip as [|k].
    + assert (forall acc', t ∈ splitFrom re (S idx) 0 acc' s ->
                rev acc' = rev acc ++ [ch] \/ rev acc' = [ch] ->
                exists a b, rev acc ++ ch :: s = a ++ t ++ b) as Hgo.
      { intros acc' Hin Hrev.
        apply IH in Hin as (a & b & Hab); [|done].
        destruct Hrev as [Hr | Hr]; rewrite Hr in Hab.
        - exists a, b. rewrite <- Hab. by rewrite <- app_assoc.
        - exists (rev acc ++ a), b. rewrite <- app_assoc, <- Hab. done. }
      assert (forall k, t ∈ splitFrom re (S idx) k [] s ->
                exists a b, rev acc ++ ch :: s = a ++ t ++ b) as Hskip.
      { intros k Hin. apply IH in Hin as (a & b & Hab); [|done].
        exists (rev acc ++ ch :: a), b. cbn [rev app] in Hab.
        rewrite Hab. by rewrite <- app_assoc. }
      assert (t = rev acc -> exists a b, rev acc ++ ch :: s = a ++ t ++ b) as Hhere.
      { intros ->. by exists [], (ch :: s). }
      destruct (matchAt re idx (ch :: s)) as [mr|].
      * destruct (length (matched mr)) as [|k]; [destruct acc as [|c acc']|].
        -- apply (Hgo [ch]); [done | by right].
        -- apply elem_of_cons in Ht as [Ht | Ht]; [by apply Hhere|].
           apply (Hgo [ch]); [done | by right].
        -- apply elem_of_cons in Ht as [Ht | Ht]; [by apply Hhere|].
           by apply (Hskip k).
      * apply (Hgo (ch :: acc)); [done | by left].
    + rewrite Hacc in * by done.
      apply IH in Ht as (a & b & Hab); [|done].
      exists (ch :: a), b. cbn [rev app] in *. by rewrite Hab.
Qed.

Lemma split_infix re s t : t ∈ split re s -> exists a b, s = a ++ t ++ b.
Proof.
  unfold split. destruct s as [|ch s].
  - destruct (test re []); [by intros ?%elem_of_nil|].
    intros ->%list_elem_of_singleton. by exists [], [].
  - intros Ht. by apply splitFrom_infix in Ht.
Qed.

Lemma includes_infix a t b p :
  includes (a ++ t ++ b) p = false -> includes t p = false.
Proof.
  intros H. apply not_true_is_false. intros Ht.
  by rewrite (includes_app _ _ a b Ht) in H.
Qed.

Lemma chapterStep_without_h2 st part :
  includes part (js "<h2 >") = false -> BuildEpub.chapterStep st part = st.
Proof.
  intros Hn. unfold BuildEpub.chapterStep.
  destruct (exec _ part) as [m|]; [|done].
  unfold substringFrom.
  rewrite (split_Lit_none (js "<h2 >") false); [done|].
  rewrite <- (take_drop (length (matched m)) part) in Hn.
  rewrite <- (app_nil_r (drop _ part)) in Hn.
  by apply includes_infix in Hn.
Qed.

Lemma foldl_fixed {A B} (f : A -> B -> A) l : forall a,
  (forall b, b ∈ l -> f a b = a) -> foldl f a l = a.
Proof.
  induction l as [|b l IH]; intros a H; [done|]. cbn [foldl].
  rewrite H by (apply elem_of_cons; by left). apply IH.
  intros b' Hb'. apply H. apply elem_of_cons. by right.
Qed.

(** A body in which [<h1 >] or [<h2 >], written just so, does not occur
    gives no chapter record and no chapter file.  A heading written any other
    way, [<h1>] say, is not seen. *)
Theorem processBody_needs_both_markers (bodyContent : str) :
  includes bodyContent (js "<h1 >") = false
  \/ includes bodyContent (js "<h2 >") = false ->
  BuildEpub.processBody bodyContent
  = {| BuildEpub.chapters := []; BuildEpub.chapterIndex := 0; BuildEpub.written := [] |}.
Proof.
  intros [Hn | Hn]; unfold BuildEpub.processBody.
  - change BuildEpub.reH1 with (litRe (js "<h1 >") false).
    by rewrite split_Lit_none.
  - apply foldl_fixed. intros part Hpart.
    apply chapterStep_without_h2.
    apply list_elem_of_lookup in Hpart as [i Hi].
    rewrite lookup_drop in Hi. apply list_elem_of_lookup_2 in Hi.
    apply split_infix in Hi as (a & b & ->).
    by apply includes_infix in Hn.
Qed.

Lemma processBody_needs_both_markers_witness :
  BuildEpub.processBody (js "<h1>A</h1><h2>One</h2>text1")
  = {| BuildEpub.chapters := []; BuildEpub.chapterIndex := 0; BuildEpub.written := [] |}.
Proof.
  apply (processBody_needs_both_markers (js "<h1>A</h1><h2>One</h2>text1")).
  left. vm_compute. reflexivity.
Defined.

(** *** Where the content of a section ends *)

(** [exec] returns the leftmost match: no match starts before it. *)
Lemma execFrom_leftmost re s : forall idx mr j,
  execFrom re idx s = Some mr -> (j < index mr - idx)%nat ->
  matchAt re (idx + j) (drop j s) = None.
Proof.
  induction s as [|ch s IH]; intros idx mr j; cbn [execFrom];
    destruct (matchAt re idx _) as [r|] eqn:Hm.
  - intros [= <-]. apply matchAt_sound in Hm as [-> _]. lia.
  - done.
  - intros [= <-]. apply matchAt_sound in Hm as [-> _]. lia.
  - intros He Hj. destruct j as [|j].
    + by rewrite Nat.add_0_r.
    + cbn [drop]. replace (idx + S j)%nat with (S idx + j)%nat by lia.
      apply (IH _ mr); [done | lia].
Qed.

Lemma execFrom_nowhere re s : forall idx j,
  execFrom re idx s = None -> (j <= length s)%nat ->
  matchAt re (idx + j) (drop j s) = None.
Proof.
  induction s as [|ch s IH]; intros idx j; cbn [execFrom];
    destruct (matchAt re idx _) as [r|] eqn:Hm; try done.
  - intros _ Hj. cbn [length] in Hj. destruct j; [|lia].
    by rewrite Nat.add_0_r.
  - intros He Hj. destruct j as [|j].
    + by rewrite Nat.add_0_r.
    + cbn [drop]. replace (idx + S j)%nat with (S idx + j)%nat by lia.
      apply IH; [done | cbn [length] in Hj; lia].
Qed.

Lemma matchAt_alt3_None m1 m2 m3 idx s :
  matchAt (mkRegExp (Alt (Lit m1) (Alt (Lit m2) (Lit m3))) 0 false false) idx s = None ->
  startsWith s m1 = false /\ startsWith s m2 = false /\ startsWith s m3 = false.
Proof.
  unfold matchAt, mkRegExp. cbn [source flagIgnoreCase nCaptures].
  change (matcher false (Alt (Lit m1) (Alt (Lit m2) (Lit m3))) ?x ?c)
    with (match matcher false (Lit m1) x c with
          | Some z => Some z
          | None => match matcher false (Lit m2) x c with
                    | Some z => Some z
                    | None => matcher false (Lit m3) x c
                    end
          end).
  rewrite !matcher_Lit. cbn [rest].
  destruct (startsWith s m1); [done|].
  destruct (startsWith s m2); [done|].
  destruct (startsWith s m3); done.
Qed.

(** Where the pattern of the section end does not match, none of the three
    markers starts. *)
Lemma matchAt_reEnd_None idx s :
  matchAt BuildEpub.reEnd idx s = None ->
  Forall (fun m => startsWith s m = false) endMarkers.
Proof.
  intros H.
  apply (matchAt_alt3_None (js "<h2 >") (js "<h1 >") (js "<hr><b>فقط برای تفریح"))
    in H as (H2 & H1 & H3).
  unfold endMarkers. constructor; [exact H2|]. constructor; [exact H1|].
  constructor; [exact H3|]. constructor.
Qed.

Lemma endMarkers_nonempty : Forall (fun m => m <> []) endMarkers.
Proof. repeat constructor; by vm_compute. Qed.

(** The content of a section, cut where the section ends, holds none of
    the three markers. *)
Lemma sectionOf_markers h2Part title content :
  BuildEpub.sectionOf h2Part = Some (title, content) ->
  Forall (fun m => includes content m = false) endMarkers.
Proof.
  unfold BuildEpub.sectionOf.
  destruct (exec _ h2Part) as [tm|]; [|done].
  unfold substringFrom, substringTo.
  set (c := drop (length (matched tm)) h2Part).
  intros [= _ <-].
  apply Forall_forall. intros m Hm. apply not_true_is_false.
  intros (a & b & Hab)%includes_spec.
  assert (m <> []) as Hne.
  { pose proof endMarkers_nonempty as H.
    rewrite Forall_forall in H. by apply H. }
  assert (matchAt BuildEpub.reEnd (0 + length a) (drop (length a) c) = None
          /\ exists b', c = a ++ m ++ b') as [Hnone [b' Hc]].
  { destruct (exec BuildEpub.reEnd c) as [em|] eqn:He.
    - assert (c = a ++ m ++ (b ++ drop (index em) c)) as Hc.
      { rewrite <- (take_drop (index em) c) at 1. rewrite Hab.
        by rewrite <- !app_assoc. }
      split; [|eauto]. apply (execFrom_leftmost _ _ _ em); [done|].
      apply (f_equal length) in Hab. rewrite length_take, !length_app in Hab.
      destruct m; [done|]. cbn [length] in Hab. lia.
    - split; [|eauto]. apply execFrom_nowhere; [done|].
      rewrite Hab, length_app. lia. }
  apply matchAt_reEnd_None in Hnone. rewrite Forall_forall in Hnone.
  specialize (Hnone m Hm). rewrite Hc, drop_app_length, startsWith_app in Hnone.
  done.
Qed.

Lemma trimStart_suffix s : exists a, s = a ++ trimStart s.
Proof.
  induction s as [|c s [a IH]]; [by exists []|]. cbn [trimStart].
  destruct (isSpace c); [|by exists []].
  exists (c :: a). cbn [app]. by rewrite <- IH.
Qed.

(** What [trim] leaves is a stretch of what it was given. *)
Lemma trim_infix s : exists a b, s = a ++ trim s ++ b.
Proof.
  unfold trim, trimEnd.
  destruct (trimStart_suffix s) as [a Ha].
  destruct (trimStart_suffix (rev (trimStart s))) as [b Hb].
  exists a, (rev b). rewrite Ha at 1. f_equal.
  rewrite <- rev_app_distr, <- Hb. by rewrite rev_involutive.
Qed.

Lemma sectionStep_markers chapterName st h2Part :
  Forall (fun r => Forall (fun m => includes (BuildEpub.content r) m = false) endMarkers)
    (BuildEpub.chapters st) ->
  Forall (fun r => Forall (fun m => includes (BuildEpub.content r) m = false) endMarkers)
    (BuildEpub.chapters (BuildEpub.sectionStep chapterName st h2Part)).
Proof.
  intros H. unfold BuildEpub.sectionStep.
  destruct (BuildEpub.sectionOf h2Part) as [[title content]|] eqn:Hs; [|done].
  destruct (trim content) as [|c t] eqn:Ht; [done|].
  cbn [BuildEpub.chapters]. apply Forall_app. split; [done|].
  constructor; [|constructor]. cbn [BuildEpub.content].
  apply sectionOf_markers in Hs.
  eapply Forall_impl; [exact Hs|]. intros m Hm. cbv beta in Hm.
  destruct (trim_infix content) as (a & b & Hab). rewrite Ht in Hab.
  rewrite Hab in Hm. by apply includes_infix in Hm.
Qed.

(** No record's content holds [<h2 >], [<h1 >] or the separator that ends
    the book: the content stops before the first of them. *)
Theorem chapter_content_stops_at_markers (bodyContent : str) :
  Forall (fun r =>
            includes (BuildEpub.content r) (js "<h2 >") = false
            /\ includes (BuildEpub.content r) (js "<h1 >") = false
            /\ includes (BuildEpub.content r) (js "<hr><b>فقط برای تفریح") = false)
    (BuildEpub.chapters (BuildEpub.processBody bodyContent)).
Proof.
  assert (Forall (fun r => Forall (fun m => includes (BuildEpub.content r) m = false)
                             endMarkers)
            (BuildEpub.chapters (BuildEpub.processBody bodyContent))) as H.
  { unfold BuildEpub.processBody.
    apply (foldl_preserves
             (fun st => Forall (fun r => Forall (fun m => includes (BuildEpub.content r) m = false)
                                           endMarkers) (BuildEpub.chapters st))).
    - intros st part Hst. unfold BuildEpub.chapterStep.
      destruct (exec _ part); [|done].
      apply (foldl_preserves
               (fun st => Forall (fun r => Forall (fun m => includes (BuildEpub.content r) m = false)
                                             endMarkers) (BuildEpub.chapters st)));
        [|done].
      intros. by apply sectionStep_markers.
    - constructor. }
  eapply Forall_impl; [exact H|]. intros r Hr. cbv beta in Hr.
  unfold endMarkers in Hr.
  inversion Hr as [|? ? H1 Hr1]; subst. inversion Hr1 as [|? ? H2 Hr2]; subst.
  inversion Hr2 as [|? ? H3 _]; subst. done.
Qed.

(** *** The contributor and the date, once inserted *)

Lemma includes_true_false s p q :
  includes s p = true -> includes s p = false -> q.
Proof. congruence. Qed.

(** A package document with a [</metadata>] in it names the translator and
    has a date tag once the two insertions have run, and still has its
    [</metadata>]. *)
Theorem addTranslatorAndDate_inserts (today opfContent : str) :
  plain today = true ->
  includes opfContent UpdateEpubMetadata.closeMetadata = true ->
  let out := UpdateEpubMetadata.addTranslatorAndDate today opfContent in
  includes out UpdateEpubMetadata.translatorLabel = true
  /\ includes out UpdateEpubMetadata.dateTagStart = true
  /\ includes out UpdateEpubMetadata.closeMetadata = true.
Proof.
  intros Hplain Hclose. cbv zeta. unfold UpdateEpubMetadata.addTranslatorAndDate.
  set (c1 := UpdateEpubMetadata.addTranslator opfContent).
  assert (includes c1 UpdateEpubMetadata.closeMetadata = true) as Hclose1.
  { unfold c1, UpdateEpubMetadata.addTranslator.
    destruct (includes opfContent UpdateEpubMetadata.translatorLabel); [done|].
    cbn [negb]. unfold replace.
    change (flagGlobal UpdateEpubMetadata.reCloseMetadata) with false. cbv iota.
    change UpdateEpubMetadata.reCloseMetadata
      with (litRe UpdateEpubMetadata.closeMetadata false).
    match goal with |- context [replaceFirst _ ?t opfContent] =>
      destruct (replaceFirst_Lit UpdateEpubMetadata.closeMetadata t opfContent)
        as [[Hn ->] | (pre & post & mr & Hc & _ & ->)]
    end; [done|].
    rewrite getSubstitution_plain by apply translatorTemplate_plain.
    apply includes_app_r, includes_app_l. unfold UpdateEpubMetadata.beforeClose.
    rewrite !app_assoc. apply includes_app_r.
    apply includes_spec. exists (js "
  "), []. vm_compute. reflexivity. }
  assert (includes c1 UpdateEpubMetadata.translatorLabel = true) as Hlabel1.
  { destruct (addTranslator_settled opfContent) as [H | H]; [done|].
    fold c1 in H. congruence. }
  assert (plain (UpdateEpubMetadata.beforeClose
                   (js "<dc:date>" ++ today ++ js "</dc:date>")) = true) as Htpl.
  { unfold UpdateEpubMetadata.beforeClose, plain.
    rewrite !forallb_app. fold (plain today). rewrite Hplain. reflexivity. }
  assert (includes (UpdateEpubMetadata.addDate today c1)
            UpdateEpubMetadata.closeMetadata = true) as Hclose2.
  { unfold UpdateEpubMetadata.addDate.
    destruct (includes c1 UpdateEpubMetadata.dateTagStart); [done|].
    cbn [negb]. unfold replace.
    change (flagGlobal UpdateEpubMetadata.reCloseMetadata) with false. cbv iota.
    change UpdateEpubMetadata.reCloseMetadata
      with (litRe UpdateEpubMetadata.closeMetadata false).
    match goal with |- context [replaceFirst _ ?t c1] =>
      destruct (replaceFirst_Lit UpdateEpubMetadata.closeMetadata t c1)
        as [[Hn ->] | (pre & post & mr & Hc & _ & ->)]
    end; [done|].
    rewrite getSubstitution_plain by exact Htpl.
    apply includes_app_r, includes_app_l. unfold UpdateEpubMetadata.beforeClose.
    rewrite !app_assoc. apply includes_app_r.
    apply includes_spec. exists (js "
  "), []. vm_compute. reflexivity. }
  split; [by apply addDate_keeps_label|]. split; [|done].
  destruct (addDate_settled today c1) as [H | H]; [done | congruence].
Qed.

Lemma addTranslatorAndDate_inserts_witness :
  let out := UpdateEpubMetadata.addTranslatorAndDate (js "2026-11-03")
               (js "<package><metadata></metadata></package>") in
  includes out UpdateEpubMetadata.translatorLabel = true
  /\ includes out UpdateEpubMetadata.dateTagStart = true
  /\ includes out UpdateEpubMetadata.closeMetadata = true.
Proof.
  apply (addTranslatorAndDate_inserts (js "2026-11-03")
           (js "<package><metadata></metadata></package>")).
  - vm_compute. reflexivity.
  - vm_compute. reflexivity.
Defined.

(** *** The patch when the archive cannot be used *)

(** When the archive cannot be extracted, the patch prints the failure,
    takes the scratch directory away again if it is still there and ends
    with status 1; nothing is searched, written or zipped. *)
Theorem updateEpubMetadata_unzip_fails (sh : Shell)
    (env : UpdateEpubMetadata.Env) (w : World) (message : str) :
  let input := UpdateEpubMetadata.inputFile env in
  let temp := UpdateEpubMetadata.tempDir env in
  let d := sh (Unzip input temp) (<[temp := Dir]> (fs w)) in
  let left := existsSync (after d) temp in
  existsSync (fs w) input = true ->
  existsSync (fs w) temp = false ->
  failure d = Some message ->
  UpdateEpubMetadata.main sh env w
  = (1%Z, {| fs := if left then after (sh (RmRf temp) (after d)) else after d;
             stderr := stderr w ++ [js "❌ Error: " ++ message];
             ran := ran w ++ Unzip input temp
                      :: (if left then [RmRf temp] else []) |}).
Proof.
  intros input temp d left Hin Hstale Hfail.
  unfold UpdateEpubMetadata.main, runScript,
    UpdateEpubMetadata.updateEpubMetadata.
  unfold tryCatch at 1. unfold bind at 1. unfold exists_ at 1.
  fold input. rewrite Hin. cbn [negb].
  unfold tryCatch at 1. fold temp.
  unfold bind at 1. unfold exists_ at 1. rewrite Hstale.
  unfold bind at 1. unfold ret at 1.
  unfold bind at 1. unfold mkdirSync at 1. cbn [fs stderr ran]. rewrite Hstale.
  unfold bind at 1. unfold execPromise at 1. cbn [fs stderr ran].
  fold d. rewrite Hfail.
  unfold bind at 1. unfold consoleError at 1. cbn [fs stderr ran].
  unfold bind at 1. unfold exists_ at 1. cbn [fs stderr ran]. fold left.
  destruct left.
  - unfold bind at 1. unfold bind at 1. unfold execPromise at 1.
    cbn [fs stderr ran].
    destruct (failure (sh (RmRf temp) (after d))); unfold throw, ret, exit;
      rewrite <- app_assoc; reflexivity.
  - unfold bind, ret, exit. reflexivity.
Qed.

Lemma updateEpubMetadata_unzip_fails_witness :
  exists message,
    UpdateEpubMetadata.main posix samplePatchEnv brokenInputWorld
    = (1%Z, {| fs := fs brokenInputWorld;
               stderr := [js "❌ Error: " ++ message];
               ran := [Unzip (UpdateEpubMetadata.inputFile samplePatchEnv)
                         (UpdateEpubMetadata.tempDir samplePatchEnv);
                       RmRf (UpdateEpubMetadata.tempDir samplePatchEnv)] |}).
Proof.
  eexists.
  etransitivity.
  - apply (updateEpubMetadata_unzip_fails posix samplePatchEnv brokenInputWorld).
    + vm_compute. reflexivity.
    + vm_compute. reflexivity.
    + vm_compute. reflexivity.
  - vm_compute. reflexivity.
Defined.



(** *** File names and manifest ids do not collide *)

Lemma chapterId_inj i j : BuildEpub.chapterId i = BuildEpub.chapterId j -> i = j.
Proof.
  unfold BuildEpub.chapterId. intros H%app_inv_head%numToString_inj. lia.
Qed.

(** Whatever the body, no two records share a file name, so that no chapter
    file is written over by a later one, and the manifest ids of the
    positions are pairwise distinct. *)
Theorem chapter_names_distinct (bodyContent : str) :
  let st := BuildEpub.processBody bodyContent in
  NoDup (map BuildEpub.filename (BuildEpub.chapters st))
  /\ NoDup (map fst (BuildEpub.written st))
  /\ forall i j, BuildEpub.chapterId i = BuildEpub.chapterId j -> i = j.
Proof.
  cbv zeta. destruct (processBody_inv bodyContent) as [_ _ _ Hw].
  pose proof (processBody_NoDup bodyContent) as Hd.
  split; [done|]. split; [|apply chapterId_inj].
  rewrite Hw, map_map. cbn [fst]. done.
Qed.

(** ** Literal patterns with the [i] flag *)

Lemma matcher_Lit_ci p : forall x c,
  matcher true (Lit p) x c =
  if startsWithCI (rest x) p then
    c {| endIndex := (endIndex x + length p)%nat;
         rest := drop (length p) (rest x); captures := captures x |}
  else None.
Proof.
  induction p as [|a p IH]; intros [e s caps] c.
  - simpl. by rewrite Nat.add_0_r.
  - assert (forall k : MatchState -> option MatchState,
              matchChar (fun ch => canonicalize true a =? canonicalize true ch)
                {| endIndex := e; rest := s; captures := caps |} k
              = match s with
                | ch :: s' => if canonicalize true a =? canonicalize true ch
                              then k {| endIndex := S e; rest := s'; captures := caps |}
                              else None
                | [] => None
                end) as Hchr by (intros k; by destruct s).
    destruct p as [|b p'].
    + cbn [Lit matcher]. rewrite Hchr. destruct s as [|ch s']; [done|].
      cbn [rest startsWithCI]. rewrite andb_true_r.
      destruct (canonicalize true a =? canonicalize true ch); [|done].
      cbn [endIndex captures length drop]. by rewrite Nat.add_1_r.
    + change (Lit (a :: b :: p')) with (Seq (Chr a) (Lit (b :: p'))).
      cbn [matcher]. rewrite Hchr. destruct s as [|ch s']; [done|].
      cbn [rest]. change (startsWithCI (ch :: s') (a :: b :: p'))
        with ((canonicalize true a =? canonicalize true ch)
              && startsWithCI s' (b :: p')).
      destruct (canonicalize true a =? canonicalize true ch); [|done].
      rewrite IH. cbn [rest endIndex captures andb].
      destruct (startsWithCI s' (b :: p')); [|done].
      do 2 f_equal. simpl. lia.
Qed.

Lemma matchAt_Lit_ci p g idx s :
  matchAt (mkRegExp (Lit p) 0 g true) idx s =
  if startsWithCI s p
  then Some {| index := idx; matched := take (length p) s; groups := [] |}
  else None.
Proof.
  unfold matchAt, mkRegExp. cbn [source flagIgnoreCase nCaptures].
  rewrite matcher_Lit_ci. cbn [rest endIndex captures].
  destruct (startsWithCI s p); [|done].
  cbn [endIndex]. replace (idx + length p - idx)%nat with (length p) by lia.
  reflexivity.
Qed.

Lemma startsWithCI_length s : forall p,
  startsWithCI s p = true -> (length p <= length s)%nat.
Proof.
  induction s as [|b s IH]; intros [|a p]; cbn [startsWithCI length];
    try done; try lia.
  intros [_ H%IH]%andb_true_iff. lia.
Qed.

Lemma execFrom_Lit_ci p g s : forall idx,
  is_Some (execFrom (mkRegExp (Lit p) 0 g true) idx s) <-> includesCI s p = true.
Proof.
  induction s as [|ch s IH]; intros idx; cbn [execFrom includesCI];
    rewrite matchAt_Lit_ci; destruct (startsWithCI _ p); cbn [orb].
  - split; [done | by eexists].
  - split; [by intros [? [=]] | done].
  - split; [done | by eexists].
  - apply IH.
Qed.

Lemma test_Lit_ci p g s : test (mkRegExp (Lit p) 0 g true) s = includesCI s p.
Proof.
  unfold test, exec.
  pose proof (execFrom_Lit_ci p g s 0%nat) as H.
  destruct (execFrom _ 0 s).
  - symmetry. apply H. by eexists.
  - destruct (includesCI s p); [|done].
    by destruct (proj2 H eq_refl).
Qed.

Lemma pieces_skip re : forall k s idx,
  (k <= length s)%nat ->
  pieces re idx k s = pieces re (idx + k) 0 (drop k s).
Proof.
  induction k as [|k IH]; intros s idx Hk.
  - by rewrite Nat.add_0_r.
  - destruct s as [|ch s]; [simpl in Hk; lia|].
    cbn [pieces drop]. rewrite IH by (simpl in Hk; lia). f_equal. lia.
Qed.

(** The global replacement of a literal by a text without [$]. *)
Lemma replaceAll_Rewritten p r g whole : forall n s idx,
  p <> [] -> plain r = true -> (length s < n)%nat ->
  Rewritten p r s
    (concat (map (pieceOut whole r) (pieces (mkRegExp (Lit p) 0 g true) idx 0 s))).
Proof.
  induction n as [|n IH]; intros s idx Hp Hr Hn; [lia|].
  destruct s as [|ch s].
  - cbn [pieces]. rewrite matchAt_Lit_ci.
    destruct p as [|a p]; [done|]. cbn [startsWithCI map concat]. constructor.
  - cbn [pieces]. rewrite matchAt_Lit_ci.
    destruct (startsWithCI (ch :: s) p) eqn:Hs.
    + pose proof (startsWithCI_length _ _ Hs) as Hlen.
      cbn [matched]. rewrite length_take.
      destruct p as [|a p]; [done|]. cbn [length] in Hlen |- *.
      rewrite Nat.min_l by lia.
      rewrite pieces_skip by lia.
      cbn [map concat pieceOut]. rewrite getSubstitution_plain by done.
      apply Rewritten_hit; [done|]. cbn [length drop].
      apply IH; [done|done|]. rewrite length_drop. cbn [length] in Hn. lia.
    + cbn [map concat pieceOut app]. apply Rewritten_gap; [done|].
      apply IH; [done|done|]. cbn [length] in Hn. lia.
Qed.

Lemma clash_startsWithCI t o : forall p,
  clash t p = true -> startsWithCI (t ++ o) p = false.
Proof.
  induction t as [|a t IH]; intros [|b p]; cbn [clash startsWithCI app]; try done.
  rewrite (N.eqb_sym (canonicalize true b)).
  destruct (canonicalize true a =? canonicalize true b); cbn [negb orb andb];
    [apply IH | done].
Qed.

Lemma includesCI_app_clashes r o p :
  clashes r p = true -> includesCI (r ++ o) p = includesCI o p.
Proof.
  induction r as [|a r IH]; [done|].
  cbn [clashes]. intros [Hc Hcs]%andb_true_iff.
  change ((a :: r) ++ o) with (a :: (r ++ o)). cbn [includesCI].
  change (a :: (r ++ o)) with ((a :: r) ++ o).
  rewrite (clash_startsWithCI _ _ _ Hc). cbn [orb]. by apply IH.
Qed.

(** What the output starts with, it took from the input, as long as the
    replacement cannot begin it. *)
Lemma Rewritten_startsWithCI p r0 r s o :
  Rewritten p (r0 :: r) s o ->
  forall q,
    Forall (fun d => canonicalize true d <> canonicalize true r0) q ->
    startsWithCI o q = true -> startsWithCI s q = true.
Proof.
  induction 1 as [|ch s o Hs Ho IH|s o Hs Ho IH]; intros q Hq.
  - done.
  - destruct q as [|d q]; [done|]. cbn [startsWithCI].
    intros [-> H]%andb_true_iff. cbn [andb].
    apply IH; [|done]. by inversion Hq.
  - destruct q as [|d q]; [intros _; by destruct s|].
    cbn [startsWithCI app]. intros [H%N.eqb_eq _]%andb_true_iff.
    by inversion Hq.
Qed.

(** An occurrence of [p] in the output of a replacement whose text [r]
    cannot take part in one stood in the input already, at a place where the
    pattern replaced did not match. *)
Lemma Rewritten_includesCI p2 r0 r c0 q s o :
  Rewritten p2 (r0 :: r) s o ->
  clashes (r0 :: r) (c0 :: q) = true ->
  Forall (fun d => canonicalize true d <> canonicalize true r0) q ->
  includesCI o (c0 :: q) = true ->
  exists a b, s = a ++ b /\ startsWithCI b (c0 :: q) = true
              /\ startsWithCI b p2 = false.
Proof.
  intros HR Hc Hq. induction HR as [|ch s o Hs Ho IH|s o Hs Ho IH].
  - done.
  - cbn [includesCI]. intros [H | H]%orb_true_iff.
    + exists [], (ch :: s). split; [done|]. split; [|done].
      cbn [startsWithCI] in H |- *. apply andb_true_iff in H as [-> H].
      cbn [andb]. by apply (Rewritten_startsWithCI p2 r0 r s o).
    + destruct (IH H) as (a & b & -> & Hb & Hb2).
      by exists (ch :: a), b.
  - rewrite includesCI_app_clashes by done. intros H.
    destruct (IH H) as (a & b & Hab & Hb & Hb2).
    exists (take (length p2) s ++ a), b. split; [|done].
    by rewrite <- app_assoc, <- Hab, take_drop.
Qed.

Lemma includesCI_app a b p :
  startsWithCI b p = true -> includesCI (a ++ b) p = true.
Proof.
  intros H. induction a as [|c a IH].
  - destruct b; cbn [app includesCI]; by rewrite H.
  - cbn [app includesCI]. rewrite IH. apply orb_true_r.
Qed.

(** *** The entities after htmlToXHTML *)

(** Whatever the fragment, the text [htmlToXHTML] puts in the chapter
    division has no [&nbsp;] and no [&copy;] left in it, in any case of
    their letters. *)
Theorem normalize_leaves_no_entity (html : str) :
  test BuildEpub.reNbsp (BuildEpub.normalize html) = false
  /\ test BuildEpub.reCopy (BuildEpub.normalize html) = false.
Proof.
  unfold BuildEpub.normalize. cbv zeta.
  set (x := replace (BuildEpub.reVoid "link") _ _).
  unfold BuildEpub.reNbsp, BuildEpub.reCopy. rewrite !test_Lit_ci.
  unfold replace. cbn [flagGlobal mkRegExp]. unfold replaceAll.
  set (y := concat (map (pieceOut x (js "&#160;")) _)).
  assert (Rewritten (js "&nbsp;") (js "&#160;") x y) as Hy.
  { apply (replaceAll_Rewritten _ _ _ _ (S (length x))); [done|done|lia]. }
  set (z := concat (map (pieceOut y (js "&#169;")) _)).
  assert (Rewritten (js "&copy;") (js "&#169;") y z) as Hz.
  { apply (replaceAll_Rewritten _ _ _ _ (S (length y))); [done|done|lia]. }
  clearbody x y z.
  assert (forall d, Forall (fun d' => canonicalize true d' <> canonicalize true 38)
                      (js d) ->
            clashes (js "&#160;") (38 :: js d) = true ->
            forall s o, Rewritten (js "&nbsp;") (js "&#160;") s o ->
              includesCI o (38 :: js d) = true ->
              exists a b, s = a ++ b /\ startsWithCI b (38 :: js d) = true
                          /\ startsWithCI b (js "&nbsp;") = false) as Hnbsp.
  { intros d Hd Hc s o HR.
    by apply (Rewritten_includesCI (js "&nbsp;") 38 (js "#160;") 38 (js d)). }
  assert (forall d, Forall (fun d' => canonicalize true d' <> canonicalize true 38)
                      (js d) ->
            clashes (js "&#169;") (38 :: js d) = true ->
            forall s o, Rewritten (js "&copy;") (js "&#169;") s o ->
              includesCI o (38 :: js d) = true ->
              exists a b, s = a ++ b /\ startsWithCI b (38 :: js d) = true
                          /\ startsWithCI b (js "&copy;") = false) as Hcopy.
  { intros d Hd Hc s o HR.
    by apply (Rewritten_includesCI (js "&copy;") 38 (js "#169;") 38 (js d)). }
  assert (Forall (fun d' => canonicalize true d' <> canonicalize true 38)
            (js "nbsp;")) as Hn by (repeat constructor; by vm_compute).
  assert (Forall (fun d' => canonicalize true d' <> canonicalize true 38)
            (js "copy;")) as Hc by (repeat constructor; by vm_compute).
  change (js "&nbsp;") with (38 :: js "nbsp;") in Hnbsp |- *.
  change (js "&copy;") with (38 :: js "copy;") in Hcopy |- *.
  assert (includesCI y (38 :: js "nbsp;") = false) as Hny.
  { apply not_true_is_false. intros H.
    destruct (Hnbsp "nbsp;"%string Hn eq_refl x y Hy H) as (a & b & _ & Hb & Hb2).
    congruence. }
  split; apply not_true_is_false; intros H.
  - destruct (Hcopy "nbsp;"%string Hn eq_refl y z Hz H) as (a & b & -> & Hb & _).
    by rewrite (includesCI_app a b) in Hny.
  - destruct (Hcopy "copy;"%string Hc eq_refl y z Hz H) as (a & b & _ & Hb & Hb2).
    congruence.
Qed.



(** *** The patch from end to end *)



Lemma navText_groups_witness :
  BuildEpub.navText [mkChapter "A" "One" "chapter1.xhtml" "x";
                     mkChapter "A" "Two" "chapter2.xhtml" "y";
                     mkChapter "B" "Three" "chapter3.xhtml" "z"]
  = Some (BuildEpub.navHead
            ++ concat (map renderRun
                         (runs [mkChapter "A" "One" "chapter1.xhtml" "x";
                                mkChapter "A" "Two" "chapter2.xhtml" "y";
                                mkChapter "B" "Three" "chapter3.xhtml" "z"]))
            ++ BuildEpub.navFoot).
Proof.
  apply (navText_groups [mkChapter "A" "One" "chapter1.xhtml" "x";
                         mkChapter "A" "Two" "chapter2.xhtml" "y";
                         mkChapter "B" "Three" "chapter3.xhtml" "z"]).
  repeat constructor; by vm_compute.
Defined.

(** [createNav] gives a document for every sequence of records: the read of
    [chapters[index-1]] is never out of range.  For no records at all the
    document is the head followed by the foot, with an empty list. *)
Theorem createNav_never_throws (chs : list BuildEpub.Chapter) :
  exists nav,
    BuildEpub.navText chs = Some nav
    /\ BuildEpub.navText [] = Some (BuildEpub.navHead ++ BuildEpub.navFoot).
Proof.
  destruct (navText_total chs) as [nav Hnav].
  exists nav. split; [done|]. vm_compute. reflexivity.
Qed.
